(** * mlbf: the bytecode program container and its pattern matcher

    A shallow embedding of [program.c]: the growable instruction buffer
    ([bf_program_create], [bf_program_grow], [bf_program_append],
    [bf_program_substitute]), the peephole matcher
    ([bf_program_match_sequence]) and the mnemonic table
    ([bf_program_map_ins_name]).

    Conventions of the embedding.
    - C integers are values of [Z].  [size_t] is the 64-bit unsigned type of
      an LP64 target, its arithmetic wraps ([to_size_t]); [int] is 32-bit and
      signed, its overflow is undefined behaviour ([int_add]).
    - The heap block [program->ir] is a [list bf_instruction] that has one
      element per allocated slot, so an access is defined exactly when its
      index is inside the list.
    - A C function that mutates [*program] and returns a [bool] becomes a
      function that returns the flag together with the program afterwards.
    - Undefined behaviour is an outcome of its own ([Undef]); it is never
      given an arbitrary meaning. *)

From stdpp Require Import base option list strings.
From Stdlib Require Import ZArith Lia Ascii.

#[local] Open Scope Z_scope.

(** ** Outcomes of a C computation *)

Inductive exec (A : Type) : Type :=
  | Val (a : A)      (* the call returns [a] *)
  | Undef            (* the call runs into undefined behaviour *)
  | OutOfFuel.       (* the loop bound of the model was too small *)
Arguments Val {A} a.
Arguments Undef {A}.
Arguments OutOfFuel {A}.

#[global] Instance exec_ret : MRet exec := fun _ a => Val a.
#[global] Instance exec_bind : MBind exec := fun _ _ f m =>
  match m with
  | Val a => f a
  | Undef => Undef
  | OutOfFuel => OutOfFuel
  end.

(** ** Machine integers *)

Definition SIZE_WIDTH : Z := 64.
Definition SIZE_MAX : Z := 2 ^ SIZE_WIDTH - 1.
Definition INT_MIN : Z := - 2 ^ 31.
Definition INT_MAX : Z := 2 ^ 31 - 1.

(** Conversion to [size_t]: reduction modulo [2^64]. *)
Definition to_size_t (x : Z) : Z := x mod 2 ^ SIZE_WIDTH.

(** Conversion of a [size_t] to [int] ([int mut_size = size]).  The C standard
    leaves the out-of-range case to the implementation; gcc and clang reduce
    modulo [2^32] into the signed range. *)
Definition to_int (x : Z) : Z := (x + 2 ^ 31) mod 2 ^ 32 - 2 ^ 31.

Definition in_int (x : Z) : bool := (INT_MIN <=? x) && (x <=? INT_MAX).

(** [a + b] on two [int]s: undefined on overflow. *)
Definition int_add (a b : Z) : exec Z :=
  if in_int (a + b) then Val (a + b) else Undef.

(** ** Data model (program.h) *)

(** Modelled from the spec: [enum bf_opcode] of program.h, which is not part
    of the sources at hand.  The tags are numbered in the order of the spec's
    opcode catalog, as a C enum without explicit values is. *)
Definition BF_INS_NOP : Z := 0.
Definition BF_INS_IN : Z := 1.
Definition BF_INS_OUT : Z := 2.
Definition BF_INS_INC_V : Z := 3.
Definition BF_INS_DEC_V : Z := 4.
Definition BF_INS_ADD_V : Z := 5.
Definition BF_INS_SUB_V : Z := 6.
Definition BF_INS_INC_P : Z := 7.
Definition BF_INS_DEC_P : Z := 8.
Definition BF_INS_ADD_P : Z := 9.
Definition BF_INS_SUB_P : Z := 10.
Definition BF_INS_BRANCH_Z : Z := 11.
Definition BF_INS_BRANCH_NZ : Z := 12.
Definition BF_INS_JMP : Z := 13.
Definition BF_INS_HALT : Z := 14.
Definition BF_INS_CLEAR : Z := 15.
Definition BF_INS_COPY : Z := 16.
Definition BF_INS_MUL : Z := 17.

(** The eighteen defined tags. *)
Definition bf_opcodes : list Z :=
  [ BF_INS_NOP; BF_INS_IN; BF_INS_OUT; BF_INS_INC_V; BF_INS_DEC_V;
    BF_INS_ADD_V; BF_INS_SUB_V; BF_INS_INC_P; BF_INS_DEC_P; BF_INS_ADD_P;
    BF_INS_SUB_P; BF_INS_BRANCH_Z; BF_INS_BRANCH_NZ; BF_INS_JMP; BF_INS_HALT;
    BF_INS_CLEAR; BF_INS_COPY; BF_INS_MUL ].

(** The three structs are declared in program.h, which is not among the
    sources; their fields are the ones program.c accesses. *)

(** [struct bf_instruction]: the opcode tag and two 32-bit signed operands. *)
Record bf_instruction : Type := mk_instruction {
  opcode : Z;
  argument : Z;
  offset : Z
}.

(** [struct bf_pattern_rule]. *)
Record bf_pattern_rule : Type := mk_rule {
  instruction : bf_instruction;
  flags : Z
}.

(** [struct bf_program].  [size] and [capacity] are [size_t] counters, as the
    [size_t new_capacity] of [bf_program_grow] has it; [ir] is the heap block
    behind [program->ir]. *)
Record bf_program : Type := mk_program {
  size : Z;
  capacity : Z;
  ir : list bf_instruction
}.

(** Modelled from the spec: [BF_PATTERN_STRICT] of program.h, missing from the
    sources at hand.  The spec calls [flags] a bitset in which [STRICT] asks
    for operand equality; the flag is taken to be bit 0. *)
Definition BF_PATTERN_STRICT : Z := 1.

(** Modelled from the spec: [bf_utils_check_flag] of utils.h, missing from the
    sources at hand.  It tests whether the bits of [flag] are set in the
    bitset [flags]. *)
Definition bf_utils_check_flag (flags flag : Z) : bool :=
  Z.land flags flag =? flag.

Definition INSTRUCTION_ALLOC_COUNT : Z := 1024.
Definition BF_MAX_PROGRAM_SIZE : Z := 65536.

(** ** Access to a heap block *)

(** [block[idx]] as an rvalue. *)
Definition load {A : Type} (block : list A) (idx : Z) : exec A :=
  if idx <? 0 then Undef
  else match block !! Z.to_nat idx with
       | Some x => Val x
       | None => Undef
       end.

(** [block[idx] = x]. *)
Definition store {A : Type} (block : list A) (idx : Z) (x : A) : exec (list A) :=
  if idx <? 0 then Undef
  else if idx <? Z.of_nat (length block) then Val (<[Z.to_nat idx := x]> block)
  else Undef.

(** ** The allocator

    [calloc] and [realloc] are part of the environment.  A call that may
    allocate takes the allocator's answer as an argument: for [calloc] whether
    a block was obtained, for [realloc] either [None] (a null pointer) or
    [Some junk], where [junk k] is the indeterminate content found in the
    fresh slot [k]. *)

Definition realloc_answer : Type := option (nat -> bf_instruction).

(** The block [realloc] hands back for [n] slots: the old content up to [n],
    then whatever the fresh slots hold. *)
Definition realloc_block (block : list bf_instruction) (n : Z)
    (junk : nat -> bf_instruction) : list bf_instruction :=
  take (Z.to_nat n) block
    ++ (junk <$> seq (length block) (Z.to_nat n - length block)).

(** A slot as [calloc] leaves it: all bytes zero. *)
Definition zero_instruction : bf_instruction := mk_instruction 0 0 0.

(** ** Program container *)

Definition bf_program_create (calloc_program calloc_ir : bool) : option bf_program :=
  if negb calloc_program then None
  else if negb calloc_ir then None
  else Some {| size := 0;
               capacity := INSTRUCTION_ALLOC_COUNT;
               ir := replicate (Z.to_nat INSTRUCTION_ALLOC_COUNT) zero_instruction |}.

(** [bf_program_grow].  The byte count handed to [realloc] does not wrap for
    any capacity up to the ceiling, so the block is described by its slot
    count. *)
Definition bf_program_grow (program : bf_program) (heap : realloc_answer)
    : bool * bf_program :=
  let new_capacity := to_size_t (capacity program + INSTRUCTION_ALLOC_COUNT) in
  let clamped : option Z :=
    if BF_MAX_PROGRAM_SIZE <? new_capacity then
      if capacity program <? BF_MAX_PROGRAM_SIZE then Some BF_MAX_PROGRAM_SIZE
      else None
    else Some new_capacity in
  match clamped with
  | None => (false, program)
  | Some new_capacity =>
      match heap with
      | None => (false, program)
      | Some junk =>
          (true, {| size := size program;
                    capacity := new_capacity;
                    ir := realloc_block (ir program) new_capacity junk |})
      end
  end.

Definition bf_program_append (program : bf_program) (instruction : bf_instruction)
    (heap : realloc_answer) : exec (bool * bf_program) :=
  let '(grown, program) :=
    if capacity program <=? size program then bf_program_grow program heap
    else (true, program) in
  if negb grown then Val (false, program)
  else
    block ← store (ir program) (size program) instruction;
    Val (true, {| size := to_size_t (size program + 1);
                  capacity := capacity program;
                  ir := block |}).

(** The copy loop of [bf_program_substitute], entered with the counter [i].
    Every completed round stores into a slot of the block that no earlier
    round reached, so a block of [n] slots admits at most [n] rounds. *)
Fixpoint substitute_loop (fuel : nat) (block new_ir : list bf_instruction)
    (pos len i : Z) : exec (list bf_instruction) :=
  match fuel with
  | O => OutOfFuel
  | S fuel =>
      if to_size_t i <? len then
        x ← load new_ir i;
        idx ← int_add pos i;
        block ← store block idx x;
        i ← int_add i 1;
        substitute_loop fuel block new_ir pos len i
      else Val block
  end.

(** [bf_program_substitute program ir pos size]; the replacement [ir] is
    [new_ir] here, a block distinct from the program's own, and [size] is
    [len]. *)
Definition bf_program_substitute (program : bf_program)
    (new_ir : list bf_instruction) (pos len : Z) : exec (bool * bf_program) :=
  if size program <=? to_size_t (to_size_t pos + len) then Val (false, program)
  else
    block ← substitute_loop (S (length (ir program))) (ir program) new_ir pos len 0;
    Val (true, {| size := size program;
                  capacity := capacity program;
                  ir := block |}).

(** ** Pattern matcher *)

(** How the scan loop of [bf_program_match_sequence] is left: by one of the
    [return 0] statements in its body, or through its condition with the
    final [mut_size] and [real_iters]. *)
Inductive scan_exit : Type :=
  | Returned (result : Z)
  | Finished (mut_size real_iters : Z).

Fixpoint match_loop (fuel : nat) (program : bf_program)
    (rules : list bf_pattern_rule) (pos i mut_size real_iters : Z)
    : exec scan_exit :=
  match fuel with
  | O => OutOfFuel
  | S fuel =>
      if i <? mut_size then
        bound ← int_add pos mut_size;
        if to_size_t bound <? size program then
          idx ← int_add pos i;
          instr ← load (ir program) idx;
          rule ← load rules real_iters;
          if opcode instr =? BF_INS_NOP then
            mut_size ← int_add mut_size 1;
            i ← int_add i 1;
            match_loop fuel program rules pos i mut_size real_iters
          else if negb (opcode instr =? opcode (instruction rule)) then
            Val (Returned 0)
          else
            let is_strict := bf_utils_check_flag (flags rule) BF_PATTERN_STRICT in
            if is_strict && negb (argument instr =? argument (instruction rule)) then
              Val (Returned 0)
            else
              real_iters ← int_add real_iters 1;
              i ← int_add i 1;
              match_loop fuel program rules pos i mut_size real_iters
        else Val (Finished mut_size real_iters)
      else Val (Finished mut_size real_iters)
  end.

(** [bf_program_match_sequence program rules pos size], with [size] as [len].
    The function only reads the program. *)
Definition bf_program_match_sequence (program : bf_program)
    (rules : list bf_pattern_rule) (pos len : Z) : exec Z :=
  if (size program <=? to_size_t (to_size_t pos + len)) || (len <=? 0) then Val 0
  else
    out ← match_loop (S (length (ir program))) program rules pos 0 (to_int len) 0;
    match out with
    | Returned result => Val result
    | Finished mut_size real_iters =>
        if to_size_t real_iters =? len then Val mut_size else Val 0
    end.

(** ** Mnemonics *)

Definition bf_program_map_ins_name (opcode : Z) : string :=
  if opcode =? BF_INS_NOP then "NOP"
  else if opcode =? BF_INS_IN then "IN"
  else if opcode =? BF_INS_OUT then "OUT"
  else if opcode =? BF_INS_INC_V then "INC_V"
  else if opcode =? BF_INS_DEC_V then "DEC_V"
  else if opcode =? BF_INS_ADD_V then "ADD_V"
  else if opcode =? BF_INS_SUB_V then "SUB_V"
  else if opcode =? BF_INS_INC_P then "INC_P"
  else if opcode =? BF_INS_DEC_P then "DEC_P"
  else if opcode =? BF_INS_ADD_P then "ADD_P"
  else if opcode =? BF_INS_SUB_P then "SUB_P"
  else if opcode =? BF_INS_BRANCH_Z then "BRANCH_Z"
  else if opcode =? BF_INS_BRANCH_NZ then "BRANCH_NZ"
  else if opcode =? BF_INS_JMP then "JMP"
  else if opcode =? BF_INS_HALT then "HALT"
  else if opcode =? BF_INS_CLEAR then "CLEAR"
  else if opcode =? BF_INS_COPY then "COPY"
  else if opcode =? BF_INS_MUL then "MUL"
  else "?".

(** ** Vocabulary of the statements *)

(** The size invariant of the container. *)
Definition size_invariant (p : bf_program) : Prop :=
  size p <= capacity p <= BF_MAX_PROGRAM_SIZE.

(** A program as the container keeps it: the block has one slot per unit of
    capacity, the length is a [size_t], and the size invariant holds. *)
Definition well_formed (p : bf_program) : Prop :=
  0 <= size p /\ Z.of_nat (length (ir p)) = capacity p /\ size_invariant p.

(** The programs a client can ever hold: a created one, and whatever the
    operations of the container make of it.  The matcher hands back no
    program; it leaves the one it reads as it is. *)
Inductive reachable : bf_program -> Prop :=
  | reach_create a b p :
      bf_program_create a b = Some p -> reachable p
  | reach_grow p heap ok p' :
      reachable p -> bf_program_grow p heap = (ok, p') -> reachable p'
  | reach_append p x heap ok p' :
      reachable p -> bf_program_append p x heap = Val (ok, p') -> reachable p'
  | reach_substitute p new_ir pos len ok p' :
      reachable p ->
      bf_program_substitute p new_ir pos len = Val (ok, p') -> reachable p'
  | reach_match p rules pos len n :
      reachable p -> bf_program_match_sequence p rules pos len = Val n ->
      reachable p.

Definition is_strict (rule : bf_pattern_rule) : bool :=
  bf_utils_check_flag (flags rule) BF_PATTERN_STRICT.

Definition is_nop (instr : bf_instruction) : Prop :=
  opcode instr = BF_INS_NOP.

(** [slot p k]: the content of slot [k] of the buffer. *)
Definition slot (p : bf_program) (k : Z) : option bf_instruction :=
  if k <? 0 then None else ir p !! Z.to_nat k.

(** What a reported span guarantees: it ends in front of the last instruction
    and its last slot holds a real instruction. *)
Definition span_closed (p : bf_program) (pos mut_size : Z) : Prop :=
  0 < mut_size /\ pos + mut_size < size p /\ pos + mut_size <= INT_MAX /\
  exists instr, slot p (pos + mut_size - 1) = Some instr /\ ~ is_nop instr.

(** Instructions and rules by opcode. *)
Definition ins (op arg : Z) : bf_instruction := mk_instruction op arg 0.
Definition nop : bf_instruction := ins BF_INS_NOP 0.
Definition loose (op : Z) : bf_pattern_rule := mk_rule (ins op 0) 0.
Definition strict (op arg : Z) : bf_pattern_rule :=
  mk_rule (ins op arg) BF_PATTERN_STRICT.

(** ** Sample programs *)

(** The program right after creation. *)
Definition fresh_program : bf_program :=
  mk_program 0 1024 (replicate 1024 zero_instruction).

(** A program holding [prefix] in slots that [calloc] had zeroed. *)
Definition program_of (prefix : list bf_instruction) : bf_program :=
  mk_program (Z.of_nat (length prefix)) 1024
             (prefix ++ replicate (1024 - length prefix) zero_instruction).

(** [ADD_V(1), NOP, NOP, JMP(5)], logical length 4. *)
Definition skip_nop_program : bf_program :=
  program_of [ins BF_INS_ADD_V 1; nop; nop; ins BF_INS_JMP 5].

(** The same four instructions followed by a [HALT], logical length 5. *)
Definition skip_nop_halt_program : bf_program :=
  program_of [ins BF_INS_ADD_V 1; nop; nop; ins BF_INS_JMP 5; ins BF_INS_HALT 0].

Definition skip_nop_rules : list bf_pattern_rule :=
  [loose BF_INS_ADD_V; loose BF_INS_JMP].

(** A program filled up to its first allocation batch. *)
Definition full_batch_program : bf_program :=
  mk_program 1024 1024 (replicate 1024 (ins BF_INS_INC_V 1)).

(** Appending a run of instructions, each with its allocator answer. *)
Fixpoint appends (p : bf_program) (l : list (bf_instruction * realloc_answer))
    : exec bf_program :=
  match l with
  | [] => Val p
  | (x, heap) :: l =>
      r ← bf_program_append p x heap;
      appends r.2 l
  end.

(** ** Vocabulary of the matcher's specification *)

(** A real instruction: anything but a [NOP] tombstone. *)
Definition is_real (instr : bf_instruction) : Prop :=
  opcode instr <> BF_INS_NOP.

#[global] Instance is_real_dec (instr : bf_instruction) : Decision (is_real instr).
Proof. unfold is_real. apply _. Defined.

(** What the loop body checks of an instruction against a rule: the opcodes
    agree, and under [STRICT] the arguments agree as well. *)
Definition rule_ok (instr : bf_instruction) (rule : bf_pattern_rule) : Prop :=
  opcode instr = opcode (instruction rule) /\
  (is_strict rule = true -> argument instr = argument (instruction rule)).

(** The slots [pos .. pos + n) of the buffer. *)
Definition segment (p : bf_program) (pos n : Z) : list bf_instruction :=
  take (Z.to_nat n) (drop (Z.to_nat pos) (ir p)).

(** The state of a scan that has looked at [i] slots: all of them exist, and
    the real ones among them, [r] in number, satisfy the first [r] rules in
    order. *)
Definition scanned (p : bf_program) (rules : list bf_pattern_rule)
    (pos i r : Z) : Prop :=
  length (segment p pos i) = Z.to_nat i /\
  Z.of_nat (length (filter is_real (segment p pos i))) = r /\
  Forall2 rule_ok (filter is_real (segment p pos i)) (take (Z.to_nat r) rules).

(** A capacity made of whole allocation batches, at least one and at most
    as many as fit below the ceiling. *)
Definition whole_batches (p : bf_program) : Prop :=
  exists k, 1 <= k <= 64 /\ capacity p = INSTRUCTION_ALLOC_COUNT * k.

(** * mlbf.c: reading the source text

    Characters are values of [ascii], the end of a string is [zero].  The
    stream behind a [FILE *] is the list of characters still to come: [getc]
    takes the first one, and returns [EOF] on the empty list.  The character
    [getc] hands back as an [int] is stored as the [char] with the same bit
    pattern.  [stdout] is the list of characters written. *)

Definition STDIN_ALLOC_SIZE : Z := 64.
Definition MEMORY_SIZE : Z := 30000.

(** [struct bf_vm]. *)
Record bf_vm : Type := mk_vm {
  pointer : Z;
  memory : list Z;
  src : list ascii
}.

(** The answers of [realloc] to the calls of one run, by call number; a
    block's fresh bytes hold whatever [junk] says. *)
Definition realloc_answers : Type := nat -> option (nat -> ascii).

Definition realloc_chars (block : list ascii) (n : Z) (junk : nat -> ascii)
    : list ascii :=
  take (Z.to_nat n) block
    ++ (junk <$> seq (length block) (Z.to_nat n - length block)).

(** [create_bf_vm]; a null [src] is [None].  Both failure paths end in
    [return NULL]. *)
Definition create_bf_vm (text : option (list ascii)) (calloc_vm : bool)
    : option bf_vm :=
  if negb calloc_vm then None
  else match text with
       | Some text =>
           Some {| pointer := 0;
                   memory := replicate (Z.to_nat MEMORY_SIZE) 0;
                   src := text |}
       | None => None
       end.

(** The [while] loop of [read_file], run on the characters still to come;
    [calls] counts the calls of [realloc] so far.  It yields [None] when it
    leaves through [goto fail], and the block with the length read so far when
    [getc] returns [EOF]. *)
Fixpoint read_file_loop (input : list ascii) (heap : realloc_answers)
    (calls : nat) (str : list ascii) (len size : Z)
    : exec (option (list ascii * Z)) :=
  match input with
  | [] => Val (Some (str, len))
  | ch :: input =>
      str ← store str len ch;
      let len := to_size_t (len + 1) in
      if size <=? len then
        let size := to_size_t (size + STDIN_ALLOC_SIZE) in
        match heap calls with
        | None => Val None
        | Some junk =>
            read_file_loop input heap (S calls)
              (realloc_chars str size junk) len size
        end
      else read_file_loop input heap calls str len size
  end.

(** [read_file fp size]: [input] is what [fp] still holds, [calloc_str] and
    [heap] are the allocator's answers.  The result is the block returned, or
    [None] for a null pointer. *)
Definition read_file (input : list ascii) (size : Z) (calloc_str : bool)
    (heap : realloc_answers) : exec (option (list ascii)) :=
  if negb calloc_str then Val None
  else
    r ← read_file_loop input heap 0 (replicate (Z.to_nat size) zero) 0 size;
    match r with
    | None => Val None
    | Some (str, len) =>
        str ← store str len zero;
        Val (Some str)
    end.

(** What [printf("%s", s)] writes: the characters of the block up to the
    first [zero]; reading on behind the block is undefined. *)
Fixpoint c_string (block : list ascii) : exec (list ascii) :=
  match block with
  | [] => Undef
  | c :: block =>
      if Ascii.eqb c zero then Val []
      else s ← c_string block; Val (c :: s)
  end.

Definition newline : ascii := ascii_of_nat 10.

(** [main]: the exit status and what was written to [stdout].  The blocks
    released by [destroy_bf_vm] are not looked at again. *)
Definition main (stdin : list ascii) (calloc_str : bool) (heap : realloc_answers)
    (calloc_vm : bool) : exec (Z * list ascii) :=
  text ← read_file stdin STDIN_ALLOC_SIZE calloc_str heap;
  match create_bf_vm text calloc_vm with
  | None => Val (1, [])
  | Some vm =>
      out ← c_string (src vm);
      Val (0, out ++ [newline])
  end.

(** ** Vocabulary of the statements on mlbf.c *)

(** The characters in front of the first [zero]. *)
Fixpoint until_nul (l : list ascii) : list ascii :=
  match l with
  | [] => []
  | c :: l => if Ascii.eqb c zero then [] else c :: until_nul l
  end.

(** The number of [realloc] calls [read_file] makes for [n] characters when
    it starts with a block of [size] bytes. *)
Definition grows (size n : Z) : Z :=
  if n <? size then 0 else (n - size) / STDIN_ALLOC_SIZE + 1.

(** * Properties *)

(** ** Machine integers and heap blocks *)

Lemma to_size_t_id x : 0 <= x < 2 ^ 64 -> to_size_t x = x.
Proof. intros H. unfold to_size_t, SIZE_WIDTH. by apply Z.mod_small. Qed.

Lemma to_int_id x : - 2 ^ 31 <= x < 2 ^ 31 -> to_int x = x.
Proof. intros H. unfold to_int. rewrite Z.mod_small; lia. Qed.

Lemma in_int_true x : - 2 ^ 31 <= x < 2 ^ 31 -> in_int x = true.
Proof. unfold in_int, INT_MIN, INT_MAX. lia. Qed.

Lemma in_int_bounds x : in_int x = true -> - 2 ^ 31 <= x < 2 ^ 31.
Proof. unfold in_int, INT_MIN, INT_MAX. lia. Qed.

Lemma int_add_Val a b : - 2 ^ 31 <= a + b < 2 ^ 31 -> int_add a b = Val (a + b).
Proof. intros H. unfold int_add. by rewrite in_int_true. Qed.

Lemma int_add_inv a b c :
  int_add a b = Val c -> c = a + b /\ - 2 ^ 31 <= a + b < 2 ^ 31.
Proof.
  unfold int_add. destruct (in_int (a + b)) eqn:E; [|done].
  intros [= <-]. split; [done | by apply in_int_bounds].
Qed.

Lemma load_Val {A} (block : list A) idx x :
  0 <= idx -> block !! Z.to_nat idx = Some x -> load block idx = Val x.
Proof.
  intros Hidx Hx. unfold load.
  destruct (Z.ltb_spec idx 0); [lia|]. by rewrite Hx.
Qed.

Lemma load_inv {A} (block : list A) idx x :
  load block idx = Val x -> 0 <= idx /\ block !! Z.to_nat idx = Some x.
Proof.
  unfold load. destruct (Z.ltb_spec idx 0); [done|].
  destruct (block !! Z.to_nat idx) eqn:E; [|done]. by intros [= <-].
Qed.

Lemma store_Val {A} (block : list A) idx x :
  0 <= idx < Z.of_nat (length block) ->
  store block idx x = Val (<[Z.to_nat idx := x]> block).
Proof.
  intros H. unfold store.
  destruct (Z.ltb_spec idx 0); [lia|].
  destruct (Z.ltb_spec idx (Z.of_nat (length block))); [done | lia].
Qed.

Lemma store_inv {A} (block block' : list A) idx x :
  store block idx x = Val block' ->
  0 <= idx < Z.of_nat (length block) /\ block' = <[Z.to_nat idx := x]> block.
Proof.
  unfold store. destruct (Z.ltb_spec idx 0); [done|].
  destruct (Z.ltb_spec idx (Z.of_nat (length block))); [|done].
  intros [= <-]. split; [lia | done].
Qed.

Lemma slot_lookup p k :
  0 <= k -> slot p k = ir p !! Z.to_nat k.
Proof. intros H. unfold slot. by destruct (Z.ltb_spec k 0); [lia|]. Qed.

(** ** Mnemonics *)

(** C9. [bf_program_map_ins_name] is defined on every tag value: each of the
    eighteen defined opcode tags is mapped to its canonical name, which is
    neither empty nor the sentinel, the eighteen names are pairwise different,
    and every other tag value is mapped to the sentinel ["?"]. *)
Theorem map_ins_name_total (tag : Z) :
  length bf_opcodes = 18%nat /\
  bf_program_map_ins_name <$> bf_opcodes =
    [ "NOP"; "IN"; "OUT"; "INC_V"; "DEC_V"; "ADD_V"; "SUB_V"; "INC_P"; "DEC_P";
      "ADD_P"; "SUB_P"; "BRANCH_Z"; "BRANCH_NZ"; "JMP"; "HALT"; "CLEAR"; "COPY";
      "MUL" ] /\
  NoDup (bf_program_map_ins_name <$> bf_opcodes) /\
  (tag ∈ bf_opcodes ->
     bf_program_map_ins_name tag <> "" /\ bf_program_map_ins_name tag <> "?") /\
  (tag ∉ bf_opcodes -> bf_program_map_ins_name tag = "?").
Proof.
  split; [done|]. split; [done|].
  split; [apply (bool_decide_unpack _); by vm_compute|]. split.
  - intros Hin. apply list_elem_of_In in Hin. simpl in Hin.
    repeat (destruct Hin as [<- | Hin]; [by split|]). done.
  - intros Hout. unfold bf_program_map_ins_name.
    repeat match goal with
    | |- context [tag =? ?c] =>
        destruct (Z.eqb_spec tag c) as [-> | _];
        [exfalso; apply Hout; apply list_elem_of_In; simpl; tauto|]
    end.
    done.
Qed.

Lemma map_ins_name_total_witness :
  (BF_INS_JMP ∈ bf_opcodes /\
     bf_program_map_ins_name BF_INS_JMP <> "" /\
     bf_program_map_ins_name BF_INS_JMP <> "?") /\
  ((18 ∉ bf_opcodes) /\ bf_program_map_ins_name 18 = "?").
Proof.
  assert (Hin : BF_INS_JMP ∈ bf_opcodes)
    by (apply (bool_decide_unpack _); by vm_compute).
  assert (Hout : 18 ∉ bf_opcodes)
    by (apply (bool_decide_unpack _); by vm_compute).
  split.
  - split; [exact Hin|].
    exact (proj1 (proj2 (proj2 (proj2 (map_ins_name_total BF_INS_JMP)))) Hin).
  - split; [exact Hout|].
    exact (proj2 (proj2 (proj2 (proj2 (map_ins_name_total 18)))) Hout).
Defined.

(** ** One round of the scan loop *)

Section scan_round.
Context (p : bf_program) (rules : list bf_pattern_rule).
Context (pos i mut_size real_iters : Z) (fuel : nat).
Context (instr : bf_instruction) (rule : bf_pattern_rule).
Hypothesis Hpos : 0 <= pos.
Hypothesis Hcount : 0 <= real_iters <= i.
Hypothesis Hi : i < mut_size.
Hypothesis Hbound : pos + mut_size < size p.
Hypothesis Hint : pos + mut_size < INT_MAX.
Hypothesis Hinstr : ir p !! Z.to_nat (pos + i) = Some instr.
Hypothesis Hrule : rules !! Z.to_nat real_iters = Some rule.

Lemma match_loop_enter :
  match_loop (S fuel) p rules pos i mut_size real_iters =
    if opcode instr =? BF_INS_NOP then
      match_loop fuel p rules pos (i + 1) (mut_size + 1) real_iters
    else if negb (opcode instr =? opcode (instruction rule)) then
      Val (Returned 0)
    else if is_strict rule && negb (argument instr =? argument (instruction rule)) then
      Val (Returned 0)
    else match_loop fuel p rules pos (i + 1) mut_size (real_iters + 1).
Proof using All.
  unfold INT_MAX in Hint. cbn [match_loop].
  destruct (Z.ltb_spec i mut_size); [|lia].
  rewrite (int_add_Val pos mut_size) by lia. cbn [mbind exec_bind].
  rewrite to_size_t_id by lia.
  destruct (Z.ltb_spec (pos + mut_size) (size p)); [|lia].
  rewrite (int_add_Val pos i) by lia. cbn [mbind exec_bind].
  rewrite (load_Val _ _ instr) by (done || lia). cbn [mbind exec_bind].
  rewrite (load_Val _ _ rule) by (done || lia). cbn [mbind exec_bind].
  rewrite (int_add_Val mut_size 1), (int_add_Val i 1),
    (int_add_Val real_iters 1) by lia.
  done.
Qed.

Lemma match_loop_nop :
  is_nop instr ->
  match_loop (S fuel) p rules pos i mut_size real_iters =
    match_loop fuel p rules pos (i + 1) (mut_size + 1) real_iters.
Proof using All.
  intros Hnop. rewrite match_loop_enter. unfold is_nop in Hnop.
  by rewrite Hnop, Z.eqb_refl.
Qed.

Lemma match_loop_hit :
  ~ is_nop instr ->
  opcode instr = opcode (instruction rule) ->
  (is_strict rule = true -> argument instr = argument (instruction rule)) ->
  match_loop (S fuel) p rules pos i mut_size real_iters =
    match_loop fuel p rules pos (i + 1) mut_size (real_iters + 1).
Proof using All.
  intros Hreal Hop Harg. rewrite match_loop_enter. unfold is_nop in Hreal.
  destruct (Z.eqb_spec (opcode instr) BF_INS_NOP); [done|].
  rewrite <- Hop, Z.eqb_refl. cbn [negb].
  destruct (is_strict rule); [|done].
  by rewrite <- Harg, Z.eqb_refl.
Qed.

Lemma match_loop_miss :
  ~ is_nop instr ->
  opcode instr <> opcode (instruction rule) \/
    (is_strict rule = true /\ argument instr <> argument (instruction rule)) ->
  match_loop (S fuel) p rules pos i mut_size real_iters = Val (Returned 0).
Proof using All.
  intros Hreal Hmiss. rewrite match_loop_enter. unfold is_nop in Hreal.
  destruct (Z.eqb_spec (opcode instr) BF_INS_NOP); [done|].
  destruct (Z.eqb_spec (opcode instr) (opcode (instruction rule))) as [Hop|];
    [|done].
  cbn [negb]. destruct Hmiss as [? | [-> Harg]]; [done|].
  by destruct (Z.eqb_spec (argument instr) (argument (instruction rule))).
Qed.
End scan_round.

(** The loop is left through its condition. *)
Lemma match_loop_counted p rules pos i mut_size real_iters fuel :
  mut_size <= i ->
  match_loop (S fuel) p rules pos i mut_size real_iters =
    Val (Finished mut_size real_iters).
Proof. intros H. cbn [match_loop]. by destruct (Z.ltb_spec i mut_size); [lia|]. Qed.

Lemma match_loop_bounded p rules pos i mut_size real_iters fuel :
  0 <= pos + mut_size < INT_MAX ->
  size p <= pos + mut_size ->
  match_loop (S fuel) p rules pos i mut_size real_iters =
    Val (Finished mut_size real_iters).
Proof.
  intros Hint H. unfold INT_MAX in Hint. cbn [match_loop].
  destruct (Z.ltb_spec i mut_size); [|done].
  rewrite (int_add_Val pos mut_size) by lia. cbn [mbind exec_bind].
  rewrite to_size_t_id by lia.
  by destruct (Z.ltb_spec (pos + mut_size) (size p)); [lia|].
Qed.

(** ** The matcher on the skip-NOP example *)

(** The sample programs are what [bf_program_create] and a run of
    [bf_program_append] produce. *)
Lemma fresh_program_created : bf_program_create true true = Some fresh_program.
Proof. reflexivity. Qed.

Lemma skip_nop_program_built :
  appends fresh_program
    ((fun x => (x, None)) <$> [ins BF_INS_ADD_V 1; nop; nop; ins BF_INS_JMP 5])
  = Val skip_nop_program.
Proof. by vm_compute. Qed.

(** C1, as the spec states it, fails: on the buffer [ADD_V(1), NOP, NOP,
    JMP(5)] of logical length 4 the scan bound [pos + mut_size < size] stops
    the loop in front of the [JMP], and the matcher returns 0, not 4. *)
Lemma match_skip_nop_length_four :
  bf_program_match_sequence skip_nop_program skip_nop_rules 0 2 = Val 0 /\
  bf_program_match_sequence skip_nop_program skip_nop_rules 0 2 <> Val 4.
Proof. split; [by vm_compute | by vm_compute]. Qed.

(** C1, amended.  When the four slots [ADD_V(1), NOP, NOP, JMP(5)] are
    followed by at least one more instruction (logical length 5 or more), the
    matcher started at index 0 with the two loose rules for [ADD_V] and [JMP]
    returns the physical span 4: both skipped [NOP]s count. *)
Theorem match_skip_nop_span (p : bf_program) (rest : list bf_instruction)
    (r0 r1 : bf_pattern_rule) :
  ir p = ins BF_INS_ADD_V 1 :: nop :: nop :: ins BF_INS_JMP 5 :: rest ->
  4 < size p ->
  opcode (instruction r0) = BF_INS_ADD_V -> is_strict r0 = false ->
  opcode (instruction r1) = BF_INS_JMP -> is_strict r1 = false ->
  bf_program_match_sequence p [r0; r1] 0 2 = Val 4.
Proof.
  intros Hir Hsize Hop0 Hloose0 Hop1 Hloose1.
  unfold bf_program_match_sequence.
  change (to_size_t (to_size_t 0 + 2)) with 2.
  destruct (Z.leb_spec (size p) 2); [lia|]. cbn [orb].
  change (2 <=? 0) with false. cbn iota. change (to_int 2) with 2.
  assert (Hfuel : S (length (ir p)) = S (S (S (S (S (length rest))))))
    by (by rewrite Hir).
  rewrite Hfuel. unfold INT_MAX in *.
  assert (Hside : forall r, is_strict r = false -> forall x y : Z,
             is_strict r = true -> x = y) by (by intros r ->).
  rewrite (match_loop_hit p _ 0 0 2 0 _ (ins BF_INS_ADD_V 1) r0);
    [| solve [lia | by rewrite ?Hir | by apply Hside] ..].
  rewrite (match_loop_nop p _ 0 (0 + 1) 2 (0 + 1) _ nop r1);
    [| solve [lia | by rewrite ?Hir] ..].
  rewrite (match_loop_nop p _ 0 (0 + 1 + 1) (2 + 1) (0 + 1) _ nop r1);
    [| solve [lia | by rewrite ?Hir] ..].
  rewrite (match_loop_hit p _ 0 (0 + 1 + 1 + 1) (2 + 1 + 1) (0 + 1) _
             (ins BF_INS_JMP 5) r1);
    [| solve [lia | by rewrite ?Hir | by apply Hside] ..].
  rewrite match_loop_counted by lia. done.
Qed.

Lemma match_skip_nop_span_witness :
  bf_program_match_sequence skip_nop_halt_program skip_nop_rules 0 2 = Val 4.
Proof.
  apply (match_skip_nop_span skip_nop_halt_program
           (ins BF_INS_HALT 0 :: replicate 1019 zero_instruction)).
  - reflexivity.
  - reflexivity.
  - reflexivity.
  - reflexivity.
  - reflexivity.
  - reflexivity.
Defined.

(** ** Strict and loose rules *)

Lemma well_formed_bounds p :
  well_formed p ->
  0 <= size p <= Z.of_nat (length (ir p)) /\ size p <= 65536.
Proof. unfold well_formed, size_invariant, BF_MAX_PROGRAM_SIZE. lia. Qed.

Lemma slot_load p k instr :
  slot p k = Some instr -> 0 <= k /\ ir p !! Z.to_nat k = Some instr.
Proof. unfold slot. by destruct (Z.ltb_spec k 0). Qed.

(** The guard of the matcher lets a span through that ends in front of the
    last instruction. *)
Lemma match_sequence_enter p rules pos len :
  0 <= pos -> 0 < len -> pos + len < size p -> size p <= 65536 ->
  bf_program_match_sequence p rules pos len =
    out ← match_loop (S (length (ir p))) p rules pos 0 len 0;
    match out with
    | Returned result => Val result
    | Finished mut_size real_iters =>
        if to_size_t real_iters =? len then Val mut_size else Val 0
    end.
Proof.
  intros Hpos Hlen Hspan Hsize. unfold bf_program_match_sequence.
  rewrite (to_size_t_id pos), (to_size_t_id (pos + len)), (to_int_id len) by lia.
  destruct (Z.leb_spec (size p) (pos + len)); [lia|].
  by destruct (Z.leb_spec len 0); [lia|].
Qed.

(** The scan with a single rule, started on a real (non-[NOP]) instruction:
    a rule with the [STRICT] flag gives span 1 exactly when opcode and
    argument both agree, a rule without it exactly when the opcode agrees,
    whatever the argument; otherwise the answer is 0.  The comparison at any
    rule index is the subject of the last section. *)
Lemma match_rule_strict_loose (p : bf_program) (pos : Z)
    (instr : bf_instruction) (rule : bf_pattern_rule) :
  well_formed p -> 0 <= pos -> pos + 1 < size p ->
  slot p pos = Some instr -> ~ is_nop instr ->
  (is_strict rule = true ->
     bf_program_match_sequence p [rule] pos 1 =
       Val (if bool_decide (opcode instr = opcode (instruction rule) /\
                            argument instr = argument (instruction rule))
            then 1 else 0)) /\
  (is_strict rule = false ->
     bf_program_match_sequence p [rule] pos 1 =
       Val (if bool_decide (opcode instr = opcode (instruction rule))
            then 1 else 0)).
Proof.
  intros Hwf Hpos Hspan Hslot Hreal.
  apply well_formed_bounds in Hwf as [Hlen Hsize].
  apply slot_load in Hslot as [_ Hinstr].
  rewrite match_sequence_enter by lia.
  rewrite (match_loop_enter p [rule] pos 0 1 0 _ instr rule);
    [| solve [lia | unfold INT_MAX; lia | by rewrite ?Z.add_0_r] ..].
  unfold is_nop in Hreal.
  destruct (Z.eqb_spec (opcode instr) BF_INS_NOP); [done|].
  assert (Hdone : forall fuel,
            match_loop (S fuel) p [rule] pos (0 + 1) 1 (0 + 1)
              = Val (Finished 1 1))
    by (intros; by rewrite match_loop_counted by lia).
  destruct (length (ir p)) as [|fuel] eqn:Hblock; [simpl in Hlen; lia|].
  split; intros Hflag; rewrite Hflag; cbn [andb].
  - destruct (Z.eqb_spec (opcode instr) (opcode (instruction rule))); cbn [negb].
    + destruct (Z.eqb_spec (argument instr) (argument (instruction rule)));
        cbn [negb].
      * rewrite Hdone, bool_decide_eq_true_2 by done. done.
      * rewrite bool_decide_eq_false_2 by tauto. done.
    + rewrite bool_decide_eq_false_2 by tauto. done.
  - destruct (Z.eqb_spec (opcode instr) (opcode (instruction rule))); cbn [negb].
    + rewrite Hdone, bool_decide_eq_true_2 by done. done.
    + rewrite bool_decide_eq_false_2 by tauto. done.
Qed.

Lemma well_formed_program_of prefix :
  (length prefix <= 1024)%nat -> well_formed (program_of prefix).
Proof.
  intros H. unfold well_formed, size_invariant, program_of, BF_MAX_PROGRAM_SIZE.
  cbn [size capacity ir]. rewrite length_app, length_replicate. lia.
Qed.

Lemma match_rule_strict_loose_witness :
  bf_program_match_sequence skip_nop_halt_program [strict BF_INS_JMP 5] 3 1 = Val 1 /\
  bf_program_match_sequence skip_nop_halt_program [strict BF_INS_JMP 6] 3 1 = Val 0 /\
  bf_program_match_sequence skip_nop_halt_program [loose BF_INS_JMP] 3 1 = Val 1.
Proof.
  assert (Hwf : well_formed skip_nop_halt_program)
    by (apply well_formed_program_of; simpl; lia).
  assert (Hreal : ~ is_nop (ins BF_INS_JMP 5)) by (by unfold is_nop).
  pose proof (fun rule =>
    match_rule_strict_loose skip_nop_halt_program 3 (ins BF_INS_JMP 5) rule
      Hwf ltac:(lia) ltac:(simpl; lia) eq_refl Hreal) as H.
  split; [| split].
  - exact (proj1 (H (strict BF_INS_JMP 5)) eq_refl).
  - exact (proj1 (H (strict BF_INS_JMP 6)) eq_refl).
  - exact (proj2 (H (loose BF_INS_JMP)) eq_refl).
Defined.

(** ** A trailing run of NOPs *)

(** From a slot on behind which only [NOP]s remain, the scan skips to the end
    of the program without satisfying another rule. *)
Lemma match_loop_skips_nops p rules pos :
  well_formed p -> 0 <= pos ->
  forall (n : nat) fuel i mut_size real_iters,
    Z.to_nat (size p - (pos + mut_size)) = n -> (n < fuel)%nat ->
    0 <= real_iters <= i -> i < mut_size ->
    pos + mut_size <= size p ->
    (Z.to_nat real_iters < length rules)%nat ->
    (forall k instr, pos + i <= k < size p -> slot p k = Some instr -> is_nop instr) ->
    exists mut_size',
      match_loop fuel p rules pos i mut_size real_iters
        = Val (Finished mut_size' real_iters).
Proof.
  intros Hwf Hpos. apply well_formed_bounds in Hwf as [Hlen Hsize].
  induction n as [|n IH]; intros fuel i mut_size real_iters Hn Hfuel Hcount Hi
    Hspan Hrule Hnops;
    (destruct fuel as [|fuel]; [lia|]).
  - exists mut_size. apply match_loop_bounded; unfold INT_MAX; lia.
  - destruct (lookup_lt_is_Some_2 (ir p) (Z.to_nat (pos + i))) as [instr Hinstr];
      [lia|].
    destruct (lookup_lt_is_Some_2 rules (Z.to_nat real_iters)) as [rule Hr];
      [done|].
    assert (Hnop : is_nop instr).
    { apply (Hnops (pos + i)); [lia|]. by rewrite slot_lookup by lia. }
    rewrite (match_loop_nop p rules pos i mut_size real_iters fuel instr rule);
      [| solve [done | lia | unfold INT_MAX; lia] ..].
    apply IH; try lia.
    intros k instr' Hk. apply Hnops. lia.
Qed.

(** C2. With two rules to satisfy, a buffer that holds behind [pos] nothing
    but [NOP]s up to its logical end (so at most the one real instruction at
    [pos] itself) yields 0: the trailing [NOP]s never complete a match. *)
Theorem match_trailing_nops (p : bf_program) (rules : list bf_pattern_rule)
    (pos : Z) :
  well_formed p -> 0 <= pos <= INT_MAX -> length rules = 2%nat ->
  (forall k instr, pos < k < size p -> slot p k = Some instr -> is_nop instr) ->
  bf_program_match_sequence p rules pos 2 = Val 0.
Proof.
  intros Hwf [Hpos Hint] Hrules Hnops. unfold INT_MAX in Hint.
  pose proof (well_formed_bounds p Hwf) as [Hlen Hsize].
  destruct (Z.le_gt_cases (size p) (pos + 2)) as [Hshort | Hspan].
  { unfold bf_program_match_sequence.
    rewrite (to_size_t_id pos), (to_size_t_id (pos + 2)) by lia.
    by destruct (Z.leb_spec (size p) (pos + 2)); [|lia]. }
  rewrite match_sequence_enter by lia.
  destruct (lookup_lt_is_Some_2 (ir p) (Z.to_nat (pos + 0))) as [instr Hinstr];
    [lia|].
  destruct (lookup_lt_is_Some_2 rules 0) as [rule Hrule]; [lia|].
  rewrite (match_loop_enter p rules pos 0 2 0 _ instr rule);
    [| solve [done | lia | unfold INT_MAX; lia] ..].
  assert (Hrest : forall mut_size real_iters,
            2 <= mut_size <= 3 -> 0 <= real_iters <= 1 ->
            match_loop (length (ir p)) p rules pos (0 + 1) mut_size real_iters
              ≫= (fun out =>
                    match out with
                    | Returned result => Val result
                    | Finished mut_size real_iters =>
                        if to_size_t real_iters =? 2 then Val mut_size else Val 0
                    end) = Val 0).
  { intros mut_size real_iters Hm Hr.
    destruct (match_loop_skips_nops p rules pos Hwf Hpos
                (Z.to_nat (size p - (pos + mut_size))) (length (ir p))
                (0 + 1) mut_size real_iters) as [mut_size' ->];
      [done | lia ..| |].
    - intros k instr' Hk. apply Hnops. lia.
    - cbn [mbind exec_bind]. rewrite to_size_t_id by lia.
      by destruct (Z.eqb_spec real_iters 2); [lia|]. }
  destruct (opcode instr =? BF_INS_NOP); [apply Hrest; lia|].
  destruct (negb _); [done|].
  destruct (_ && _); [done|].
  apply Hrest; lia.
Qed.

Lemma match_trailing_nops_witness :
  bf_program_match_sequence
    (program_of [ins BF_INS_ADD_V 1; nop; nop; nop; nop]) skip_nop_rules 0 2
  = Val 0.
Proof.
  apply match_trailing_nops.
  - apply well_formed_program_of. simpl. lia.
  - unfold INT_MAX. lia.
  - reflexivity.
  - intros k instr Hk Hslot. apply slot_load in Hslot as [_ Hslot].
    change (size _) with 5 in Hk.
    assert (Hcases : Z.to_nat k = 1%nat \/ Z.to_nat k = 2%nat \/
                     Z.to_nat k = 3%nat \/ Z.to_nat k = 4%nat) by lia.
    destruct Hcases as [E | [E | [E | E]]]; rewrite E in Hslot;
      injection Hslot as <-; reflexivity.
Defined.

(** ** Substitution *)

(** The copy loop, entered at [i], overwrites the slots [pos + i .. pos + len)
    with the corresponding replacement instructions and nothing else. *)
Lemma substitute_loop_spec new_ir pos len :
  0 <= pos -> len <= Z.of_nat (length new_ir) -> pos + len <= INT_MAX ->
  forall (n : nat) fuel block i,
    Z.to_nat (len - i) = n -> (n < fuel)%nat -> 0 <= i <= len ->
    pos + len <= Z.of_nat (length block) ->
    exists block',
      substitute_loop fuel block new_ir pos len i = Val block' /\
      length block' = length block /\
      (forall k, i <= k < len ->
         block' !! Z.to_nat (pos + k) = new_ir !! Z.to_nat k) /\
      (forall j : nat, ~ (pos + i <= Z.of_nat j < pos + len) ->
         block' !! j = block !! j).
Proof.
  intros Hpos Hnew Hint. unfold INT_MAX in Hint.
  induction n as [|n IH]; intros fuel block i Hn Hfuel Hi Hblock;
    (destruct fuel as [|fuel]; [lia|]); cbn [substitute_loop];
    rewrite to_size_t_id by lia.
  - destruct (Z.ltb_spec i len); [lia|].
    exists block. split; [done|]. split; [done|]. split; [intros; lia | done].
  - destruct (Z.ltb_spec i len); [|lia].
    destruct (lookup_lt_is_Some_2 new_ir (Z.to_nat i)) as [x Hx]; [lia|].
    rewrite (load_Val _ _ x) by (done || lia). cbn [mbind exec_bind].
    rewrite (int_add_Val pos i), (int_add_Val i 1) by lia.
    cbn [mbind exec_bind].
    rewrite store_Val by lia. cbn [mbind exec_bind].
    destruct (IH fuel (<[Z.to_nat (pos + i) := x]> block) (i + 1))
      as (block' & -> & Hlen & Hin & Hout); [lia | lia | lia | |].
    { rewrite length_insert. lia. }
    exists block'. split; [done|]. split; [by rewrite Hlen, length_insert|].
    split.
    + intros k Hk. destruct (decide (k = i)) as [-> | Hne].
      * rewrite Hout by lia. rewrite list_lookup_insert_eq by lia. done.
      * apply Hin. lia.
    + intros j Hj. rewrite Hout by lia.
      apply list_lookup_insert_ne. lia.
Qed.

(** A span that ends in front of the last instruction is written. *)
Lemma substitute_succeeds p new_ir pos len :
  0 <= pos -> 0 <= len -> pos + len < size p ->
  pos + len <= Z.of_nat (length (ir p)) -> pos + len <= INT_MAX ->
  len <= Z.of_nat (length new_ir) ->
  exists p',
    bf_program_substitute p new_ir pos len = Val (true, p') /\
    size p' = size p /\ capacity p' = capacity p /\
    length (ir p') = length (ir p) /\
    (forall k, 0 <= k < len -> slot p' (pos + k) = new_ir !! Z.to_nat k) /\
    (forall j, ~ (pos <= j < pos + len) -> slot p' j = slot p j).
Proof.
  intros Hpos Hlen Hspan Hblock Hint Hnew. unfold bf_program_substitute.
  pose proof Hint as Hint'. unfold INT_MAX in Hint'.
  rewrite (to_size_t_id pos), (to_size_t_id (pos + len)) by lia.
  destruct (Z.leb_spec (size p) (pos + len)); [lia|].
  destruct (substitute_loop_spec new_ir pos len Hpos Hnew Hint
              (Z.to_nat (len - 0)) (S (length (ir p))) (ir p) 0)
    as (block' & -> & Hlength & Hin & Hout); [done | lia | lia | lia |].
  cbn [mbind exec_bind]. eexists. split; [done|]. cbn [size capacity ir].
  repeat split; [done|..].
  - intros k Hk. rewrite slot_lookup by lia. cbn [ir]. apply Hin. lia.
  - intros j Hj. unfold slot. cbn [ir].
    destruct (Z.ltb_spec j 0); [done|]. apply Hout. lia.
Qed.

(** A span that reaches the last instruction or lies behind it is refused,
    provided [pos + len] is representable as a [size_t]. *)
Lemma substitute_out_of_range p new_ir pos len :
  0 <= size p -> INT_MIN <= pos -> size p <= pos + len <= SIZE_MAX ->
  bf_program_substitute p new_ir pos len = Val (false, p).
Proof.
  intros Hsize Hpos Hspan. unfold bf_program_substitute.
  unfold INT_MIN in Hpos. unfold SIZE_MAX, SIZE_WIDTH in Hspan.
  assert (Hsum : to_size_t (to_size_t pos + len) = pos + len).
  { unfold to_size_t, SIZE_WIDTH. rewrite Zplus_mod_idemp_l.
    apply Z.mod_small. lia. }
  rewrite Hsum. by destruct (Z.leb_spec (size p) (pos + len)); [|lia].
Qed.

(** C4, at the input on which the code departs from it.  With [pos = 1] and
    [size = SIZE_MAX] the sum [pos + size] is far beyond the logical length 5,
    but as a [size_t] it wraps to 0 and passes the bounds check: the call
    does not return [false], it starts to overwrite the buffer and runs off
    the end of the replacement. *)
Theorem substitute_span_wraps :
  size skip_nop_halt_program <= 1 + SIZE_MAX /\
  to_size_t (to_size_t 1 + SIZE_MAX) = 0 /\
  bf_program_substitute skip_nop_halt_program [ins BF_INS_CLEAR 0; nop] 1 SIZE_MAX
    = Undef /\
  bf_program_substitute skip_nop_halt_program [ins BF_INS_CLEAR 0; nop] 1 SIZE_MAX
    <> Val (false, skip_nop_halt_program).
Proof. split; [by vm_compute|]. split; [by vm_compute|]. split; by vm_compute. Qed.

(** C5. A span with [pos + size] strictly below the logical length is
    written: the call returns [true], the slots [pos .. pos + size) hold the
    first [size] replacement instructions, every other slot is as before, and
    length and capacity are as before. *)
Theorem substitute_in_bounds (p : bf_program) (new_ir : list bf_instruction)
    (pos len : Z) :
  well_formed p ->
  0 <= pos -> 0 <= len -> pos + len < size p ->
  len <= Z.of_nat (length new_ir) ->
  exists p',
    bf_program_substitute p new_ir pos len = Val (true, p') /\
    size p' = size p /\ capacity p' = capacity p /\
    (forall k, 0 <= k < len -> slot p' (pos + k) = new_ir !! Z.to_nat k) /\
    (forall j, ~ (pos <= j < pos + len) -> slot p' j = slot p j).
Proof.
  intros Hwf Hpos Hlen Hspan Hnew.
  apply well_formed_bounds in Hwf as [Hblock Hsize].
  destruct (substitute_succeeds p new_ir pos len)
    as (p' & H1 & H2 & H3 & _ & H4 & H5); [lia .. | unfold INT_MAX; lia | lia |].
  by exists p'.
Qed.

Lemma substitute_in_bounds_witness :
  exists p',
    bf_program_substitute skip_nop_halt_program [ins BF_INS_CLEAR 0; nop] 1 2
      = Val (true, p') /\
    take 5 (ir p') = [ins BF_INS_ADD_V 1; ins BF_INS_CLEAR 0; nop;
                      ins BF_INS_JMP 5; ins BF_INS_HALT 0].
Proof.
  destruct (substitute_in_bounds skip_nop_halt_program
              [ins BF_INS_CLEAR 0; nop] 1 2) as (p' & Hrun & _).
  - apply well_formed_program_of. simpl. lia.
  - lia.
  - lia.
  - reflexivity.
  - simpl. lia.
  - exists p'. split; [exact Hrun|].
    vm_compute in Hrun. injection Hrun as <-. reflexivity.
Defined.

(** ** A reported span can be substituted *)

(** The only value a [return] inside the scan loop hands back is 0. *)
Lemma match_loop_returned p rules pos fuel :
  forall i mut_size real_iters result,
    match_loop fuel p rules pos i mut_size real_iters = Val (Returned result) ->
    result = 0.
Proof.
  induction fuel as [|fuel IH]; intros i mut_size real_iters result;
    cbn [match_loop]; [done|].
  destruct (i <? mut_size); [|done].
  destruct (int_add pos mut_size) as [bound| |]; cbn [mbind exec_bind]; [|done..].
  destruct (to_size_t bound <? size p); [|done].
  destruct (int_add pos i) as [idx| |]; cbn [mbind exec_bind]; [|done..].
  destruct (load (ir p) idx) as [instr| |]; cbn [mbind exec_bind]; [|done..].
  destruct (load rules real_iters) as [rule| |]; cbn [mbind exec_bind]; [|done..].
  destruct (opcode instr =? BF_INS_NOP).
  - destruct (int_add mut_size 1) as [m| |]; cbn [mbind exec_bind]; [|done..].
    destruct (int_add i 1) as [i'| |]; cbn [mbind exec_bind]; [|done..].
    apply IH.
  - destruct (negb _); [by intros [= <-]|].
    destruct (_ && _); [by intros [= <-]|].
    destruct (int_add real_iters 1) as [r| |]; cbn [mbind exec_bind]; [|done..].
    destruct (int_add i 1) as [i'| |]; cbn [mbind exec_bind]; [|done..].
    apply IH.
Qed.

(** Loop invariant of the scan: the rules still to satisfy are as many as the
    rounds still allowed ([mut_size - i]), and once the last rule is satisfied
    the span is closed.  [len] is the rule count as an [int]. *)
Lemma match_loop_finished p rules pos len fuel :
  0 <= pos ->
  forall i mut_size real_iters mut_size' real_iters',
    match_loop fuel p rules pos i mut_size real_iters
      = Val (Finished mut_size' real_iters') ->
    mut_size - i = len - real_iters ->
    0 <= i -> 0 <= real_iters <= INT_MAX ->
    (real_iters = len -> span_closed p pos mut_size) ->
    0 <= real_iters' <= INT_MAX /\
    (real_iters' = len -> span_closed p pos mut_size').
Proof.
  intros Hpos.
  induction fuel as [|fuel IH];
    intros i mut_size real_iters mut_size' real_iters';
    cbn [match_loop]; [done|].
  intros Hrun Hinv Hi Hcount Hclosed.
  destruct (Z.ltb_spec i mut_size) as [Hround|]; [|by injection Hrun as <- <-].
  destruct (int_add pos mut_size) as [bound| |] eqn:Hbound;
    cbn [mbind exec_bind] in Hrun; [|done..].
  apply int_add_inv in Hbound as [-> Hbound].
  destruct (Z.ltb_spec (to_size_t (pos + mut_size)) (size p)) as [Hspan|];
    [|by injection Hrun as <- <-].
  rewrite to_size_t_id in Hspan by lia.
  destruct (int_add pos i) as [idx| |] eqn:Hidx;
    cbn [mbind exec_bind] in Hrun; [|done..].
  apply int_add_inv in Hidx as [-> _].
  destruct (load (ir p) (pos + i)) as [instr| |] eqn:Hinstr;
    cbn [mbind exec_bind] in Hrun; [|done..].
  apply load_inv in Hinstr as [_ Hinstr].
  destruct (load rules real_iters) as [rule| |];
    cbn [mbind exec_bind] in Hrun; [|done..].
  destruct (Z.eqb_spec (opcode instr) BF_INS_NOP) as [|Hreal].
  - destruct (int_add mut_size 1) as [m| |] eqn:Hm;
      cbn [mbind exec_bind] in Hrun; [|done..].
    apply int_add_inv in Hm as [-> _].
    destruct (int_add i 1) as [i'| |] eqn:Hi';
      cbn [mbind exec_bind] in Hrun; [|done..].
    apply int_add_inv in Hi' as [-> _].
    apply (IH _ _ _ _ _ Hrun); try lia.
  - destruct (negb _); [done|].
    destruct (_ && _); [done|].
    destruct (int_add real_iters 1) as [r| |] eqn:Hr;
      cbn [mbind exec_bind] in Hrun; [|done..].
    apply int_add_inv in Hr as [-> Hr].
    destruct (int_add i 1) as [i'| |] eqn:Hi';
      cbn [mbind exec_bind] in Hrun; [|done..].
    apply int_add_inv in Hi' as [-> _].
    apply (IH _ _ _ _ _ Hrun); try (unfold INT_MAX; lia).
    intros Hlast. unfold span_closed, INT_MAX.
    split; [lia|]. split; [lia|]. split; [lia|].
    exists instr. split; [|done].
    rewrite slot_lookup by lia.
    by replace (pos + mut_size - 1) with (pos + i) by lia.
Qed.

(** C10. Whenever the matcher, started at a non-negative position, reports a
    nonzero span [n], the span ends strictly in front of the logical length
    ([pos + n < size]), its last slot [pos + n - 1] holds a real instruction,
    and [bf_program_substitute] at [pos] with size [n] passes its bounds check
    and returns [true] for every replacement of at least [n] instructions. *)
Theorem match_span_substitutable (p : bf_program)
    (rules : list bf_pattern_rule) (pos len n : Z) :
  0 <= pos ->
  bf_program_match_sequence p rules pos len = Val n -> n <> 0 ->
  pos + n < size p /\
  (exists instr, slot p (pos + n - 1) = Some instr /\ ~ is_nop instr) /\
  (forall new_ir, n <= Z.of_nat (length new_ir) ->
     exists p', bf_program_substitute p new_ir pos n = Val (true, p')).
Proof.
  intros Hpos Hrun Hn. unfold bf_program_match_sequence in Hrun.
  destruct (_ || _) eqn:Hguard; [by injection Hrun as <-|].
  apply orb_false_elim in Hguard as [_ Hlen]. apply Z.leb_gt in Hlen.
  destruct (match_loop _ _ _ _ _ _ _) as [[result | mut_size real_iters]| |]
    eqn:Hloop; cbn [mbind exec_bind] in Hrun; [| |done..].
  { apply match_loop_returned in Hloop as ->. by injection Hrun as <-. }
  destruct (Z.eqb_spec (to_size_t real_iters) len) as [Hall|];
    injection Hrun as <-; [|done].
  destruct (Z.eq_dec (to_int len) 0) as [Hzero | Hnonzero].
  { rewrite Hzero, match_loop_counted in Hloop by lia.
    injection Hloop as <- <-. done. }
  destruct (match_loop_finished p rules pos (to_int len) _ Hpos _ _ _ _ _ Hloop)
    as [Hcount Hclosed]; [unfold INT_MAX; lia .. |].
  rewrite to_size_t_id in Hall by (unfold INT_MAX in Hcount; lia).
  rewrite <- Hall, to_int_id in Hclosed by (unfold INT_MAX in Hcount; lia).
  destruct (Hclosed eq_refl) as (Hspan & Hend & Hint & Hlast).
  split; [done|]. split; [done|].
  intros new_ir Hnew.
  destruct Hlast as (instr & Hslot & _).
  apply slot_load in Hslot as [_ Hslot]. apply lookup_lt_Some in Hslot.
  destruct (substitute_succeeds p new_ir pos mut_size) as (p' & Hp' & _);
    [lia .. |].
  by exists p'.
Qed.

Lemma match_span_substitutable_witness :
  bf_program_match_sequence skip_nop_halt_program skip_nop_rules 0 2 = Val 4 /\
  0 + 4 < size skip_nop_halt_program /\
  exists p',
    bf_program_substitute skip_nop_halt_program
      [ins BF_INS_CLEAR 0; nop; nop; nop] 0 4 = Val (true, p').
Proof.
  assert (Hrun : bf_program_match_sequence skip_nop_halt_program
                   skip_nop_rules 0 2 = Val 4) by (by vm_compute).
  destruct (match_span_substitutable skip_nop_halt_program skip_nop_rules
              0 2 4 ltac:(lia) Hrun ltac:(lia)) as (Hend & _ & Hsub).
  split; [exact Hrun|]. split; [exact Hend|].
  apply Hsub. simpl. lia.
Defined.

(** ** Growth *)

Lemma length_realloc_block block n junk :
  0 <= n -> Z.of_nat (length (realloc_block block n junk)) = n.
Proof.
  intros Hn. unfold realloc_block.
  rewrite length_app, length_take, length_fmap, length_seq. lia.
Qed.

Lemma lookup_realloc_block block n junk (k : nat) :
  (k < length block)%nat -> Z.of_nat (length block) <= n ->
  realloc_block block n junk !! k = block !! k.
Proof.
  intros Hk Hn. unfold realloc_block.
  rewrite take_ge by lia. by apply lookup_app_l.
Qed.

(** [bf_program_grow] on a capacity within the ceiling. *)
Lemma grow_unfold p heap :
  0 <= capacity p <= BF_MAX_PROGRAM_SIZE ->
  bf_program_grow p heap =
    if capacity p <? BF_MAX_PROGRAM_SIZE then
      match heap with
      | None => (false, p)
      | Some junk =>
          let new_capacity :=
            Z.min (capacity p + INSTRUCTION_ALLOC_COUNT) BF_MAX_PROGRAM_SIZE in
          (true, {| size := size p;
                    capacity := new_capacity;
                    ir := realloc_block (ir p) new_capacity junk |})
      end
    else (false, p).
Proof.
  unfold BF_MAX_PROGRAM_SIZE, INSTRUCTION_ALLOC_COUNT. intros Hcap.
  unfold bf_program_grow, BF_MAX_PROGRAM_SIZE, INSTRUCTION_ALLOC_COUNT.
  rewrite to_size_t_id by lia.
  destruct (Z.ltb_spec 65536 (capacity p + 1024));
    destruct (Z.ltb_spec (capacity p) 65536); try lia; try done.
  - by rewrite Z.min_r by lia.
  - by rewrite Z.min_l by lia.
Qed.

(** C8, as the spec states it, fails: a program below the ceiling whose
    reallocation is refused keeps its capacity, and [bf_program_grow]
    returns [false]. *)
Lemma grow_refused_below_ceiling :
  capacity fresh_program < BF_MAX_PROGRAM_SIZE /\
  bf_program_grow fresh_program None = (false, fresh_program) /\
  capacity (bf_program_grow fresh_program None).2
    <> Z.min (capacity fresh_program + INSTRUCTION_ALLOC_COUNT) BF_MAX_PROGRAM_SIZE.
Proof. split; [done|]. split; [done|]. by vm_compute. Qed.

(** C8, amended.  For a program within the ceiling: when the reallocation
    succeeds and the capacity is below 65536, [bf_program_grow] returns
    [true], the capacity grows by one batch of 1024 slots clamped to 65536,
    and the length and every stored slot are as before; when the capacity is
    at 65536, or when the reallocation is refused, it returns [false] and
    changes nothing. *)
Theorem grow_batch_or_ceiling (p : bf_program) (heap : realloc_answer) :
  well_formed p ->
  (capacity p < BF_MAX_PROGRAM_SIZE ->
   forall junk, heap = Some junk ->
     exists p',
       bf_program_grow p heap = (true, p') /\
       capacity p' =
         Z.min (capacity p + INSTRUCTION_ALLOC_COUNT) BF_MAX_PROGRAM_SIZE /\
       size p' = size p /\
       Z.of_nat (length (ir p')) = capacity p' /\
       (forall k, 0 <= k < capacity p -> slot p' k = slot p k)) /\
  (capacity p = BF_MAX_PROGRAM_SIZE \/ heap = None ->
     bf_program_grow p heap = (false, p)).
Proof.
  intros (Hsize & Hblock & Hinv). unfold size_invariant in Hinv.
  rewrite grow_unfold by lia. split.
  - intros Hcap junk ->. destruct (Z.ltb_spec (capacity p) BF_MAX_PROGRAM_SIZE);
      [|lia].
    eexists. split; [done|]. cbn [size capacity ir].
    unfold BF_MAX_PROGRAM_SIZE, INSTRUCTION_ALLOC_COUNT in *.
    split; [done|]. split; [done|].
    split; [apply length_realloc_block; lia|].
    intros k Hk. unfold slot. cbn [ir].
    destruct (Z.ltb_spec k 0); [done|].
    apply lookup_realloc_block; lia.
  - intros [Hceil | ->].
    + by destruct (Z.ltb_spec (capacity p) BF_MAX_PROGRAM_SIZE); [lia|].
    + by destruct (capacity p <? BF_MAX_PROGRAM_SIZE).
Qed.

Lemma well_formed_fresh_program : well_formed fresh_program.
Proof. by vm_compute. Qed.

Lemma grow_batch_or_ceiling_witness :
  (exists p',
     bf_program_grow fresh_program (Some (fun _ => nop)) = (true, p') /\
     capacity p' = 2048) /\
  bf_program_grow fresh_program None = (false, fresh_program).
Proof.
  pose proof (grow_batch_or_ceiling fresh_program) as H.
  split.
  - destruct (proj1 (H (Some (fun _ => nop)) well_formed_fresh_program)
                ltac:(reflexivity) (fun _ => nop) eq_refl)
      as (p' & Hrun & Hcap & _).
    exists p'. split; [exact Hrun | exact Hcap].
  - exact (proj2 (H None well_formed_fresh_program) (or_intror eq_refl)).
Defined.

Lemma grow_well_formed p heap ok p' :
  well_formed p -> bf_program_grow p heap = (ok, p') -> well_formed p'.
Proof.
  intros Hwf. pose proof Hwf as (Hsize & Hblock & Hinv).
  unfold size_invariant in Hinv. rewrite grow_unfold by lia.
  destruct (capacity p <? BF_MAX_PROGRAM_SIZE); [|by intros [= <- <-]].
  destruct heap as [junk|]; [|by intros [= <- <-]].
  intros [= <- <-]. unfold well_formed, size_invariant. cbn [size capacity ir].
  unfold BF_MAX_PROGRAM_SIZE, INSTRUCTION_ALLOC_COUNT in *.
  split; [done|]. split; [apply length_realloc_block; lia | lia].
Qed.

(** ** Append *)

(** The two ways [bf_program_append] ends on a well-formed program. *)
Lemma append_cases p x heap :
  well_formed p ->
  (exists p',
     bf_program_append p x heap = Val (true, p') /\
     well_formed p' /\
     size p' = size p + 1 /\
     slot p' (size p) = Some x /\
     (forall k, 0 <= k < size p -> slot p' k = slot p k)) \/
  (bf_program_append p x heap = Val (false, p) /\
   size p = capacity p /\
   (capacity p = BF_MAX_PROGRAM_SIZE \/ heap = None)).
Proof.
  intros Hwf. pose proof Hwf as (Hsize & Hblock & Hinv).
  unfold size_invariant in Hinv. unfold bf_program_append.
  assert (Hstore : forall q,
            well_formed q -> size q = size p -> size p < capacity q ->
            (forall k : nat, (k < length (ir p))%nat -> ir q !! k = ir p !! k) ->
            exists p',
              (block ← store (ir q) (size q) x;
               Val (true, {| size := to_size_t (size q + 1);
                             capacity := capacity q;
                             ir := block |})) = Val (true, p') /\
              well_formed p' /\ size p' = size p + 1 /\
              slot p' (size p) = Some x /\
              (forall k, 0 <= k < size p -> slot p' k = slot p k)).
  { intros q (Hqsize & Hqblock & Hqinv) Hsame Hroom Hkeep.
    unfold size_invariant, BF_MAX_PROGRAM_SIZE in Hqinv.
    rewrite store_Val by lia. cbn [mbind exec_bind].
    rewrite to_size_t_id by lia. eexists. split; [done|].
    unfold well_formed, size_invariant, BF_MAX_PROGRAM_SIZE.
    cbn [size capacity ir]. rewrite length_insert, Hsame.
    split; [lia|]. split; [done|].
    split; [rewrite slot_lookup by lia; cbn [ir];
            by rewrite list_lookup_insert_eq by lia|].
    intros k Hk. rewrite !slot_lookup by lia. cbn [ir].
    rewrite list_lookup_insert_ne by lia. apply Hkeep. lia. }
  destruct (Z.leb_spec (capacity p) (size p)) as [Hfull | Hroom].
  - rewrite grow_unfold by lia.
    destruct (Z.ltb_spec (capacity p) BF_MAX_PROGRAM_SIZE) as [Hbelow | Hceil].
    + destruct heap as [junk|]; [|right; cbn [negb]; repeat split; [lia | by right]].
      left. cbn [negb].
      assert (Hgrown : bf_program_grow p (Some junk) =
                (true, {| size := size p;
                          capacity := Z.min (capacity p + INSTRUCTION_ALLOC_COUNT)
                                            BF_MAX_PROGRAM_SIZE;
                          ir := realloc_block (ir p)
                                  (Z.min (capacity p + INSTRUCTION_ALLOC_COUNT)
                                         BF_MAX_PROGRAM_SIZE) junk |})).
      { rewrite grow_unfold by lia.
        by destruct (Z.ltb_spec (capacity p) BF_MAX_PROGRAM_SIZE); [|lia]. }
      apply Hstore.
      * by apply (grow_well_formed p (Some junk) true).
      * done.
      * cbn [capacity]. unfold INSTRUCTION_ALLOC_COUNT. lia.
      * intros k Hk. cbn [ir]. apply lookup_realloc_block; [done|].
        unfold INSTRUCTION_ALLOC_COUNT. lia.
    + right. cbn [negb]. repeat split; [lia | left; lia].
  - left. cbn [negb]. by apply Hstore.
Qed.

(** The full sample program is what 1024 appends make of a fresh one. *)
Lemma full_batch_program_built :
  appends fresh_program (replicate 1024 (ins BF_INS_INC_V 1, None))
  = Val full_batch_program.
Proof. by vm_compute. Qed.

(** C6, as the spec states it, fails: the append into a full buffer fails
    when the reallocation is refused, although the capacity (1024) is far
    from the ceiling. *)
Lemma append_refused_below_ceiling :
  capacity full_batch_program < BF_MAX_PROGRAM_SIZE /\
  bf_program_append full_batch_program nop None = Val (false, full_batch_program).
Proof. split; [done | by vm_compute]. Qed.

(** C6, amended.  On a well-formed program [bf_program_append] either
    succeeds -- the length grows by exactly one, the instruction sits at
    index [length - 1] and every instruction stored before is unchanged -- or
    it fails because the buffer is full and either the capacity ceiling has
    been reached or the reallocation was refused; on failure the program is
    unchanged, so the instruction is not stored. *)
Theorem append_outcome (p : bf_program) (x : bf_instruction)
    (heap : realloc_answer) :
  well_formed p ->
  (exists p',
     bf_program_append p x heap = Val (true, p') /\
     size p' = size p + 1 /\
     slot p' (size p' - 1) = Some x /\
     (forall k, 0 <= k < size p -> slot p' k = slot p k)) \/
  (bf_program_append p x heap = Val (false, p) /\
   size p = capacity p /\
   (capacity p = BF_MAX_PROGRAM_SIZE \/ heap = None)).
Proof.
  intros Hwf.
  destruct (append_cases p x heap Hwf)
    as [(p' & Hrun & _ & Hsize & Hlast & Hkeep) | Hfail]; [left | by right].
  exists p'. split; [done|]. split; [done|]. split; [|done].
  by replace (size p' - 1) with (size p) by lia.
Qed.

Lemma append_outcome_witness :
  (exists p',
     bf_program_append fresh_program (ins BF_INS_INC_V 1) None = Val (true, p') /\
     size p' = 1 /\ slot p' 0 = Some (ins BF_INS_INC_V 1)) /\
  bf_program_append full_batch_program nop None = Val (false, full_batch_program).
Proof.
  split.
  - destruct (append_outcome fresh_program (ins BF_INS_INC_V 1) None
                well_formed_fresh_program)
      as [(p' & Hrun & Hsize & Hlast & _) | (Hrun & _)].
    + exists p'. split; [exact Hrun|]. split; [exact Hsize|].
      rewrite Hsize in Hlast. exact Hlast.
    + vm_compute in Hrun. discriminate Hrun.
  - destruct (append_outcome full_batch_program nop None)
      as [(p' & Hrun & _) | (Hrun & _)].
    + by vm_compute.
    + vm_compute in Hrun. discriminate Hrun.
    + exact Hrun.
Defined.

(** ** The size invariant *)

Lemma substitute_loop_length new_ir pos len fuel :
  forall block i block',
    substitute_loop fuel block new_ir pos len i = Val block' ->
    length block' = length block.
Proof.
  induction fuel as [|fuel IH]; intros block i block'; cbn [substitute_loop];
    [done|].
  destruct (to_size_t i <? len); [|by intros [= <-]].
  destruct (load new_ir i) as [x| |]; cbn [mbind exec_bind]; [|done..].
  destruct (int_add pos i) as [idx| |]; cbn [mbind exec_bind]; [|done..].
  destruct (store block idx x) as [block1| |] eqn:Hstore;
    cbn [mbind exec_bind]; [|done..].
  apply store_inv in Hstore as [_ ->].
  destruct (int_add i 1) as [i'| |]; cbn [mbind exec_bind]; [|done..].
  intros Hrun. apply IH in Hrun. by rewrite Hrun, length_insert.
Qed.

Lemma substitute_well_formed p new_ir pos len ok p' :
  well_formed p ->
  bf_program_substitute p new_ir pos len = Val (ok, p') ->
  well_formed p' /\ size p' = size p /\ capacity p' = capacity p.
Proof.
  intros Hwf. unfold bf_program_substitute.
  destruct (size p <=? _); [by intros [= <- <-]|].
  destruct (substitute_loop _ _ _ _ _ _) as [block| |] eqn:Hloop;
    cbn [mbind exec_bind]; [|done..].
  intros [= <- <-]. apply substitute_loop_length in Hloop.
  unfold well_formed, size_invariant in *. cbn [size capacity ir].
  by rewrite Hloop.
Qed.

Lemma create_well_formed a b p :
  bf_program_create a b = Some p -> well_formed p.
Proof.
  destruct a, b; cbn; [|done..]. intros [= <-]. apply well_formed_fresh_program.
Qed.

Lemma append_well_formed p x heap ok p' :
  well_formed p -> bf_program_append p x heap = Val (ok, p') -> well_formed p'.
Proof.
  intros Hwf Hrun.
  destruct (append_cases p x heap Hwf) as [(q & Hq & Hwf' & _) | (Hq & _)];
    rewrite Hq in Hrun; by injection Hrun as <- <-.
Qed.

Lemma reachable_well_formed p : reachable p -> well_formed p.
Proof.
  induction 1 as [a b p Hcreate | p heap ok p' _ IH Hrun | p x heap ok p' _ IH Hrun
                 | p new_ir pos len ok p' _ IH Hrun | p rules pos len n _ IH _].
  - by apply (create_well_formed a b).
  - by apply (grow_well_formed p heap ok).
  - by apply (append_well_formed p x heap ok).
  - by apply (substitute_well_formed p new_ir pos len ok p').
  - done.
Qed.

(** C7. Every program that creation and the operations of the container
    (grow, append, substitute; the matcher changes nothing) can produce
    satisfies [size <= capacity <= 65536].  Appending to it succeeds as long
    as fewer than 65536 instructions are stored and the allocator cooperates,
    and once 65536 instructions are stored every further append fails and
    leaves the program as it is: the length never exceeds 65536. *)
Theorem size_invariant_reachable (p : bf_program) :
  reachable p ->
  size_invariant p /\
  size p <= 65536 /\
  (size p < 65536 ->
   forall x junk, exists p',
     bf_program_append p x (Some junk) = Val (true, p') /\
     size p' = size p + 1) /\
  (size p = 65536 ->
   forall x heap, bf_program_append p x heap = Val (false, p)).
Proof.
  intros Hreach. apply reachable_well_formed in Hreach as Hwf.
  pose proof Hwf as (Hsize & Hblock & Hinv).
  split; [done|]. unfold size_invariant, BF_MAX_PROGRAM_SIZE in Hinv.
  split; [lia|]. split.
  - intros Hbelow x junk.
    destruct (append_cases p x (Some junk) Hwf)
      as [(p' & Hrun & _ & Hgrown & _) | (_ & Hfull & [Hceil | ?])];
      [by exists p' | unfold BF_MAX_PROGRAM_SIZE in Hceil; lia | done].
  - intros Hceil x heap.
    destruct (append_cases p x heap Hwf)
      as [(p' & _ & Hwf' & Hgrown & _) | (Hrun & _)]; [|done].
    destruct Hwf' as (_ & _ & Hinv').
    unfold size_invariant, BF_MAX_PROGRAM_SIZE in Hinv'. lia.
Qed.

Lemma size_invariant_reachable_witness :
  reachable fresh_program /\
  size_invariant fresh_program /\
  exists p',
    bf_program_append fresh_program nop (Some (fun _ => nop)) = Val (true, p') /\
    size p' = 1.
Proof.
  assert (Hreach : reachable fresh_program)
    by exact (reach_create true true fresh_program eq_refl).
  destruct (size_invariant_reachable fresh_program Hreach)
    as (Hinv & _ & Hmore & _).
  split; [exact Hreach|]. split; [exact Hinv|].
  exact (Hmore ltac:(reflexivity) nop (fun _ => nop)).
Defined.

(** The ceiling is met: for every length up to 65536 some program of that
    length can be produced, so the failing append of the invariant theorem is
    about programs that exist. *)
Lemma reachable_any_size (n : nat) :
  Z.of_nat n <= 65536 -> exists p, reachable p /\ size p = Z.of_nat n.
Proof.
  induction n as [|n IH]; intros Hn.
  - exists fresh_program. split; [|done].
    exact (reach_create true true fresh_program eq_refl).
  - destruct IH as (p & Hreach & Hsize); [lia|].
    destruct (append_cases p nop (Some (fun _ => nop)))
      as [(p' & Hrun & _ & Hgrown & _) | (_ & Hfull & [Hceil | ?])].
    + by apply reachable_well_formed.
    + exists p'. split; [by apply (reach_append p nop (Some (fun _ => nop)) true p')|]. lia.
    + pose proof (reachable_well_formed p Hreach) as (_ & _ & Hinv).
      unfold size_invariant, BF_MAX_PROGRAM_SIZE in *. lia.
    + done.
Qed.

(** ** The loop bounds of the model suffice *)

Lemma int_add_fuel a b : int_add a b <> OutOfFuel.
Proof. unfold int_add. by destruct (in_int _). Qed.

Lemma load_fuel {A} (block : list A) idx : load block idx <> OutOfFuel.
Proof. unfold load. destruct (idx <? 0); [done|]. by destruct (_ !! _). Qed.

Lemma store_fuel {A} (block : list A) idx x : store block idx x <> OutOfFuel.
Proof. unfold store. destruct (idx <? 0); [done|]. by destruct (idx <? _). Qed.

(** A step that cannot exhaust the loop bound either yields a value or ends
    the run in undefined behaviour. *)
Ltac step_exec E H :=
  destruct E eqn:H; cbn [mbind exec_bind];
  [ | done
    | exfalso;
      first [ by apply int_add_fuel in H | by apply load_fuel in H
            | by apply store_fuel in H ] ].

(** Every completed round of the scan reads a slot of the block that lies
    one further on, so the rounds are bounded by the block. *)
Lemma match_loop_fuel p rules pos fuel :
  forall i mut_size real_iters,
    (1 <= fuel)%nat ->
    (0 <= pos + i -> Z.of_nat (length (ir p)) - (pos + i) < Z.of_nat fuel) ->
    match_loop fuel p rules pos i mut_size real_iters <> OutOfFuel.
Proof.
  induction fuel as [|fuel IH]; intros i mut_size real_iters Hone Hfuel;
    [lia|]. cbn [match_loop].
  destruct (i <? mut_size); [|done].
  step_exec (int_add pos mut_size) Hbound.
  destruct (to_size_t _ <? size p); [|done].
  step_exec (int_add pos i) Hidx. apply int_add_inv in Hidx as [-> _].
  step_exec (load (ir p) (pos + i)) Hinstr.
  apply load_inv in Hinstr as [Hidx Hinstr]. apply lookup_lt_Some in Hinstr.
  step_exec (load rules real_iters) Hrule.
  destruct (opcode _ =? BF_INS_NOP).
  - step_exec (int_add mut_size 1) Hm.
    step_exec (int_add i 1) Hi'. apply int_add_inv in Hi' as [-> _].
    apply IH; lia.
  - destruct (negb _); [done|]. destruct (_ && _); [done|].
    step_exec (int_add real_iters 1) Hr.
    step_exec (int_add i 1) Hi'. apply int_add_inv in Hi' as [-> _].
    apply IH; lia.
Qed.

(** [bf_program_match_sequence] always comes to an end within its bound: it
    returns a value or runs into undefined behaviour. *)
Lemma match_sequence_terminates p rules pos len :
  bf_program_match_sequence p rules pos len <> OutOfFuel.
Proof.
  unfold bf_program_match_sequence. destruct (_ || _); [done|].
  pose proof (match_loop_fuel p rules pos (S (length (ir p))) 0 (to_int len) 0)
    as Hloop.
  destruct (match_loop _ _ _ _ _ _ _) as [[result | mut_size real_iters]| |];
    cbn [mbind exec_bind]; [done | by destruct (_ =? _) | done |].
  exfalso. apply Hloop; [lia | lia | done].
Qed.

Lemma substitute_loop_fuel new_ir pos len fuel :
  forall block i,
    (1 <= fuel)%nat ->
    (0 <= pos + i -> Z.of_nat (length block) - (pos + i) < Z.of_nat fuel) ->
    substitute_loop fuel block new_ir pos len i <> OutOfFuel.
Proof.
  induction fuel as [|fuel IH]; intros block i Hone Hfuel; [lia|].
  cbn [substitute_loop].
  destruct (to_size_t i <? len); [|done].
  destruct (load new_ir i) as [x| |] eqn:Hx; cbn [mbind exec_bind];
    [| done | by apply load_fuel in Hx].
  step_exec (int_add pos i) Hidx. apply int_add_inv in Hidx as [-> _].
  step_exec (store block (pos + i) x) Hstore.
  apply store_inv in Hstore as [Hidx ->].
  step_exec (int_add i 1) Hi'. apply int_add_inv in Hi' as [-> _].
  apply IH; rewrite ?length_insert; lia.
Qed.

Lemma substitute_terminates p new_ir pos len :
  bf_program_substitute p new_ir pos len <> OutOfFuel.
Proof.
  unfold bf_program_substitute. destruct (size p <=? _); [done|].
  pose proof (substitute_loop_fuel new_ir pos len (S (length (ir p))) (ir p) 0)
    as Hloop.
  destruct (substitute_loop _ _ _ _ _ _) as [block| |];
    cbn [mbind exec_bind]; [done | done |].
  exfalso. apply Hloop; [lia | lia | done].
Qed.

(** * Further properties of program.c *)

(** ** What a reported span contains *)

Lemma segment_snoc p pos i instr :
  0 <= pos -> 0 <= i ->
  ir p !! Z.to_nat (pos + i) = Some instr ->
  segment p pos (i + 1) = segment p pos i ++ [instr].
Proof.
  intros Hpos Hi Hinstr. unfold segment.
  replace (Z.to_nat (i + 1)) with (S (Z.to_nat i)) by lia.
  apply take_S_r. rewrite lookup_drop.
  by replace (Z.to_nat pos + Z.to_nat i)%nat with (Z.to_nat (pos + i)) by lia.
Qed.


Lemma scanned_start p rules pos : scanned p rules pos 0 0.
Proof. unfold scanned, segment. cbn. by split; [|split; [|constructor]]. Qed.

Lemma scanned_nop p rules pos i r instr :
  0 <= pos -> 0 <= i ->
  ir p !! Z.to_nat (pos + i) = Some instr -> is_nop instr ->
  scanned p rules pos i r -> scanned p rules pos (i + 1) r.
Proof.
  intros Hpos Hi Hinstr Hnop (Hlen & Hcount & Hrules). unfold scanned.
  rewrite (segment_snoc p pos i instr) by done.
  rewrite length_app, filter_app, Hlen.
  rewrite (filter_cons_False _ instr) by (unfold is_real, is_nop in *; tauto).
  rewrite filter_nil, app_nil_r. cbn. split; [lia | done].
Qed.

Lemma scanned_hit p rules pos i r instr rule :
  0 <= pos -> 0 <= i -> 0 <= r ->
  ir p !! Z.to_nat (pos + i) = Some instr -> is_real instr ->
  rules !! Z.to_nat r = Some rule -> rule_ok instr rule ->
  scanned p rules pos i r -> scanned p rules pos (i + 1) (r + 1).
Proof.
  intros Hpos Hi Hr Hinstr Hreal Hrule Hok (Hlen & Hcount & Hrules).
  unfold scanned. rewrite (segment_snoc p pos i instr) by done.
  rewrite length_app, filter_app, Hlen, (filter_cons_True _ instr) by done.
  rewrite filter_nil, length_app. cbn. split; [lia|]. split; [lia|].
  replace (Z.to_nat (r + 1)) with (S (Z.to_nat r)) by lia.
  rewrite (take_S_r _ _ rule) by done.
  apply Forall2_app; [done|]. constructor; [done | constructor].
Qed.

(** The scan loop keeps [scanned] and the balance between the rounds left
    ([mut_size - i]) and the rules left ([len - real_iters]). *)
Lemma match_loop_sound p rules pos len fuel :
  0 <= pos ->
  forall i mut_size real_iters mut_size' real_iters',
    match_loop fuel p rules pos i mut_size real_iters
      = Val (Finished mut_size' real_iters') ->
    mut_size - i = len - real_iters -> 0 <= i -> 0 <= real_iters ->
    scanned p rules pos i real_iters ->
    exists i',
      mut_size' - i' = len - real_iters' /\ 0 <= i' /\
      scanned p rules pos i' real_iters'.
Proof.
  intros Hpos.
  induction fuel as [|fuel IH];
    intros i mut_size real_iters mut_size' real_iters';
    cbn [match_loop]; [done|].
  intros Hrun Hinv Hi Hcount Hscan.
  destruct (Z.ltb_spec i mut_size) as [Hround|];
    [|injection Hrun as <- <-; by exists i].
  destruct (int_add pos mut_size) as [bound| |] eqn:Hbound;
    cbn [mbind exec_bind] in Hrun; [|done..].
  destruct (to_size_t bound <? size p);
    [|injection Hrun as <- <-; by exists i].
  destruct (int_add pos i) as [idx| |] eqn:Hidx;
    cbn [mbind exec_bind] in Hrun; [|done..].
  apply int_add_inv in Hidx as [-> _].
  destruct (load (ir p) (pos + i)) as [instr| |] eqn:Hinstr;
    cbn [mbind exec_bind] in Hrun; [|done..].
  apply load_inv in Hinstr as [_ Hinstr].
  destruct (load rules real_iters) as [rule| |] eqn:Hrule;
    cbn [mbind exec_bind] in Hrun; [|done..].
  apply load_inv in Hrule as [_ Hrule].
  destruct (Z.eqb_spec (opcode instr) BF_INS_NOP) as [Hnop|Hreal].
  - destruct (int_add mut_size 1) as [m| |] eqn:Hm;
      cbn [mbind exec_bind] in Hrun; [|done..].
    apply int_add_inv in Hm as [-> _].
    destruct (int_add i 1) as [i'| |] eqn:Hi';
      cbn [mbind exec_bind] in Hrun; [|done..].
    apply int_add_inv in Hi' as [-> _].
    apply (IH _ _ _ _ _ Hrun); [lia | lia | lia |].
    by apply (scanned_nop p rules pos i real_iters instr).
  - destruct (Z.eqb_spec (opcode instr) (opcode (instruction rule)))
      as [Hop|]; cbn [negb] in Hrun; [|done].
    destruct (bf_utils_check_flag (flags rule) BF_PATTERN_STRICT
              && negb (argument instr =? argument (instruction rule)))
      eqn:Hstrict; [done|].
    destruct (int_add real_iters 1) as [r| |] eqn:Hr;
      cbn [mbind exec_bind] in Hrun; [|done..].
    apply int_add_inv in Hr as [-> _].
    destruct (int_add i 1) as [i'| |] eqn:Hi';
      cbn [mbind exec_bind] in Hrun; [|done..].
    apply int_add_inv in Hi' as [-> _].
    apply (IH _ _ _ _ _ Hrun); [lia | lia | lia |].
    apply (scanned_hit p rules pos i real_iters instr rule); try done.
    split; [done|]. intros Hflag. unfold is_strict in Hflag.
    rewrite Hflag in Hstrict. cbn [andb] in Hstrict.
    by destruct (Z.eqb_spec (argument instr) (argument (instruction rule))).
Qed.

(** X1. Soundness of the matcher.  A nonzero result [n] is the length of a
    span of existing slots [pos .. pos + n) that holds exactly [len] real
    instructions -- all others are [NOP]s -- and these satisfy the first [len]
    rules one by one, in order; in particular [n] is at least the rule count
    and the rule list holds at least [len] rules. *)
Theorem match_sequence_sound (p : bf_program) (rules : list bf_pattern_rule)
    (pos len n : Z) :
  0 <= pos ->
  bf_program_match_sequence p rules pos len = Val n -> n <> 0 ->
  0 < len <= n /\
  length (segment p pos n) = Z.to_nat n /\
  Z.of_nat (length (filter is_real (segment p pos n))) = len /\
  Forall2 rule_ok (filter is_real (segment p pos n)) (take (Z.to_nat len) rules).
Proof.
  intros Hpos Hrun Hn. unfold bf_program_match_sequence in Hrun.
  destruct (_ || _) eqn:Hguard; [by injection Hrun as <-|].
  apply orb_false_elim in Hguard as [_ Hlen]. apply Z.leb_gt in Hlen.
  destruct (match_loop _ _ _ _ _ _ _) as [[result | mut_size real_iters]| |]
    eqn:Hloop; cbn [mbind exec_bind] in Hrun; [| |done..].
  { apply match_loop_returned in Hloop as ->. by injection Hrun as <-. }
  destruct (Z.eqb_spec (to_size_t real_iters) len) as [Hall|];
    injection Hrun as <-; [|done].
  destruct (Z.eq_dec (to_int len) 0) as [Hzero | Hnonzero].
  { rewrite Hzero, match_loop_counted in Hloop by lia.
    injection Hloop as <- <-. done. }
  destruct (match_loop_finished p rules pos (to_int len) _ Hpos _ _ _ _ _ Hloop)
    as [Hcount _]; [unfold INT_MAX; lia .. |].
  destruct (match_loop_sound p rules pos (to_int len) _ Hpos _ _ _ _ _ Hloop)
    as (i' & Hbalance & Hi' & Hscan);
    [lia | lia | lia | apply scanned_start |].
  rewrite to_size_t_id in Hall by (unfold INT_MAX in Hcount; lia).
  rewrite <- Hall, to_int_id in Hbalance by (unfold INT_MAX in Hcount; lia).
  assert (i' = mut_size) as -> by lia. subst len.
  destruct Hscan as (Hlength & Hreal & Hrules).
  split; [|done]. split; [lia|].
  pose proof (length_filter is_real (segment p pos mut_size)). lia.
Qed.

Lemma match_sequence_sound_witness :
  bf_program_match_sequence skip_nop_halt_program skip_nop_rules 0 2 = Val 4 /\
  Forall2 rule_ok (filter is_real (segment skip_nop_halt_program 0 4))
    (take 2 skip_nop_rules).
Proof.
  assert (Hrun : bf_program_match_sequence skip_nop_halt_program
                   skip_nop_rules 0 2 = Val 4) by (by vm_compute).
  destruct (match_sequence_sound skip_nop_halt_program skip_nop_rules
              0 2 4 ltac:(lia) Hrun ltac:(lia)) as (_ & _ & _ & Hrules).
  split; [exact Hrun | exact Hrules].
Defined.

(** ** Which spans are reported *)

(** From a state whose remaining slots [rest] end in a real instruction and
    whose real instructions satisfy the rules still open, the scan runs to
    the end of [rest] and satisfies every rule. *)
Lemma match_loop_complete p (rules : list bf_pattern_rule) pos len :
  well_formed p -> 0 <= pos -> (Z.to_nat len <= length rules)%nat ->
  forall rest fuel i r,
    (forall k x, rest !! k = Some x ->
       ir p !! (Z.to_nat (pos + i) + k)%nat = Some x) ->
    Forall2 rule_ok (filter is_real rest)
      (drop (Z.to_nat r) (take (Z.to_nat len) rules)) ->
    match last rest with Some y => is_real y | None => True end ->
    0 <= i -> 0 <= r <= len -> r <= i ->
    (length rest < fuel)%nat ->
    pos + i + Z.of_nat (length rest) < size p ->
    match_loop fuel p rules pos i (i + (len - r)) r
      = Val (Finished (i + Z.of_nat (length rest)) len).
Proof.
  intros Hwf Hpos Hrules.
  apply well_formed_bounds in Hwf as [Hblock Hsize].
  induction rest as [|x rest IH]; intros fuel i r Hslots Hok Hlast Hi Hr Hri
    Hfuel Hend; (destruct fuel as [|fuel]; [cbn in Hfuel; lia|]).
  - rewrite filter_nil in Hok. apply Forall2_nil_inv_l in Hok.
    apply (f_equal length) in Hok. rewrite length_drop, length_take in Hok.
    cbn in Hok. rewrite match_loop_counted by lia.
    cbn [length]. do 2 f_equal; lia.
  - pose proof (Hslots 0%nat x eq_refl) as Hx. rewrite Nat.add_0_r in Hx.
    assert (Hopen : r < len).
    { destruct (decide (r < len)) as [|Hdone]; [done|]. exfalso.
      rewrite drop_ge in Hok by (rewrite length_take; lia).
      apply Forall2_nil_inv_r in Hok.
      assert (Hy : exists y, last (x :: rest) = Some y /\ is_real y).
      { destruct (last (x :: rest)) as [y|] eqn:Hy; [by exists y|].
        by apply last_None in Hy. }
      destruct Hy as (y & Hy & Hreal).
      assert (Hin : y ∈ filter is_real (x :: rest)).
      { apply list_elem_of_filter. split; [done|].
        apply last_Some_elem_of in Hy. done. }
      rewrite Hok in Hin. by apply not_elem_of_nil in Hin. }
    assert (Hcount : Z.of_nat (length (filter is_real (x :: rest))) = len - r).
    { apply Forall2_length in Hok. rewrite Hok, length_drop, length_take. lia. }
    pose proof (length_filter is_real (x :: rest)) as Hle. cbn [length] in *.
    destruct (lookup_lt_is_Some_2 rules (Z.to_nat r)) as [rule Hrule]; [lia|].
    assert (Hrest : forall k y, rest !! k = Some y ->
              ir p !! (Z.to_nat (pos + (i + 1)) + k)%nat = Some y).
    { intros k y Hk.
      replace (Z.to_nat (pos + (i + 1)) + k)%nat
        with (Z.to_nat (pos + i) + S k)%nat by lia.
      by apply Hslots. }
    assert (Hlast' : match last rest with
                     | Some y => is_real y
                     | None => True
                     end).
    { destruct rest as [|z rest']; [done|].
      by rewrite last_cons_cons in Hlast. }
    destruct (decide (is_real x)) as [Hreal | Hnop].
    + rewrite filter_cons_True in Hok by done.
      rewrite (drop_S _ rule (Z.to_nat r)) in Hok
        by (rewrite lookup_take_lt by lia; done).
      apply Forall2_cons_1 in Hok as [Hx_ok Hok].
      rewrite (match_loop_hit p rules pos i (i + (len - r)) r fuel x rule);
        [| solve [done | lia | unfold INT_MAX; lia
                 | unfold is_nop; done | apply Hx_ok] ..].
      replace (i + (len - r)) with (i + 1 + (len - (r + 1))) by lia.
      rewrite (IH fuel (i + 1) (r + 1)); try lia; try done.
      * do 2 f_equal; lia.
      * by replace (Z.to_nat (r + 1)) with (S (Z.to_nat r)) by lia.
    + rewrite filter_cons_False in Hok by done.
      rewrite filter_cons_False in Hcount, Hle by done.
      rewrite (match_loop_nop p rules pos i (i + (len - r)) r fuel x rule);
        [| solve [done | lia | unfold INT_MAX; lia
                 | unfold is_nop, is_real in *;
                   by destruct (decide (opcode x = BF_INS_NOP))] ..].
      replace (i + (len - r) + 1) with (i + 1 + (len - r)) by lia.
      rewrite (IH fuel (i + 1) r); try lia; try done.
      * do 2 f_equal; lia.
Qed.

(** A list of slots that starts at [pos], ends in front of the last
    instruction with a real instruction, and whose real instructions are
    matched one by one by the first [len] rules, is reported in full. *)
Lemma match_reports_slots (p : bf_program) (rules : list bf_pattern_rule)
    (pos len : Z) (slots : list bf_instruction) :
  well_formed p -> 0 <= pos -> 0 < len ->
  pos + Z.of_nat (length slots) < size p ->
  (forall k x, slots !! k = Some x -> ir p !! (Z.to_nat pos + k)%nat = Some x) ->
  match last slots with Some y => is_real y | None => True end ->
  Z.of_nat (length (take (Z.to_nat len) rules)) = len ->
  Forall2 rule_ok (filter is_real slots) (take (Z.to_nat len) rules) ->
  bf_program_match_sequence p rules pos len = Val (Z.of_nat (length slots)).
Proof.
  intros Hwf Hpos Hlen Hend Hslots Hlast Hrules Hok.
  pose proof (well_formed_bounds p Hwf) as [Hblock Hsize].
  rewrite length_take in Hrules.
  assert (Hcount : Z.of_nat (length (filter is_real slots)) = len).
  { apply Forall2_length in Hok. rewrite Hok, length_take. lia. }
  pose proof (length_filter is_real slots) as Hle.
  rewrite match_sequence_enter by lia. cbn [mbind exec_bind].
  pose proof (match_loop_complete p rules pos len Hwf Hpos ltac:(lia)
                slots (S (length (ir p))) 0 0) as Hloop.
  rewrite Z.sub_0_r, Z.add_0_l, Z.add_0_l in Hloop. rewrite Hloop.
  - cbn [mbind exec_bind]. by rewrite to_size_t_id, Z.eqb_refl by lia.
  - intros k x Hk.
    replace (Z.to_nat (pos + 0)) with (Z.to_nat pos) by lia. by apply Hslots.
  - done.
  - done.
  - lia.
  - lia.
  - lia.
  - lia.
  - lia.
Qed.

(** X2. Completeness of the matcher.  On a well-formed program, a span
    [pos .. pos + n) that ends in front of the last instruction, whose last
    slot is real and whose real instructions are exactly matched one by one
    by the first [len] rules, is reported with its length [n], however many
    [NOP]s lie between the real instructions. *)
Theorem match_sequence_complete (p : bf_program) (rules : list bf_pattern_rule)
    (pos len n : Z) (final : bf_instruction) :
  well_formed p ->
  0 <= pos -> 0 < len -> pos + n < size p ->
  slot p (pos + n - 1) = Some final -> is_real final ->
  Z.of_nat (length (take (Z.to_nat len) rules)) = len ->
  Forall2 rule_ok (filter is_real (segment p pos n)) (take (Z.to_nat len) rules) ->
  bf_program_match_sequence p rules pos len = Val n.
Proof.
  intros Hwf Hpos Hlen Hend Hfinal Hreal Hrules Hok.
  pose proof (well_formed_bounds p Hwf) as [Hblock Hsize].
  apply slot_load in Hfinal as [Hn Hfinal].
  assert (Hseg : length (segment p pos n) = Z.to_nat n).
  { unfold segment. rewrite length_take, length_drop. lia. }
  assert (Hcount : Z.of_nat (length (filter is_real (segment p pos n))) = len).
  { apply Forall2_length in Hok. rewrite Hok. done. }
  pose proof (length_filter is_real (segment p pos n)) as Hle.
  rewrite (match_reports_slots p rules pos len (segment p pos n));
    try done; rewrite ?Hseg.
  - f_equal. lia.
  - lia.
  - intros k x Hk. unfold segment in Hk.
    apply lookup_take_Some in Hk as [Hk _]. by rewrite lookup_drop in Hk.
  - rewrite last_lookup, Hseg. unfold segment.
    rewrite lookup_take_lt, lookup_drop by lia.
    replace (Z.to_nat pos + Nat.pred (Z.to_nat n))%nat
      with (Z.to_nat (pos + n - 1)) by lia.
    by rewrite Hfinal.
Qed.

Lemma match_sequence_complete_witness :
  bf_program_match_sequence skip_nop_halt_program skip_nop_rules 0 2 = Val 4.
Proof.
  apply (match_sequence_complete skip_nop_halt_program skip_nop_rules 0 2 4
           (ins BF_INS_JMP 5)).
  - apply well_formed_program_of. simpl. lia.
  - lia.
  - lia.
  - reflexivity.
  - reflexivity.
  - by unfold is_real.
  - reflexivity.
  - apply (bool_decide_unpack _). by vm_compute.
Defined.

(** ** A substitution and the next scan *)

(** A span is determined by its slots. *)
Lemma segment_eq p pos n (l : list bf_instruction) :
  0 <= pos -> Z.of_nat (length l) = n ->
  (forall k, 0 <= k < n -> slot p (pos + k) = l !! Z.to_nat k) ->
  segment p pos n = l.
Proof.
  intros Hpos Hlen Hslots. apply list_eq. intros j. unfold segment.
  destruct (decide (j < Z.to_nat n)%nat) as [Hj | Hj].
  - rewrite lookup_take_lt, lookup_drop by done.
    pose proof (Hslots (Z.of_nat j) ltac:(lia)) as Hj'.
    rewrite slot_lookup, Nat2Z.id in Hj' by lia. rewrite <- Hj'.
    f_equal. lia.
  - rewrite lookup_take_ge by lia. symmetry. apply lookup_ge_None. lia.
Qed.

Lemma filter_real_padding (pad : nat) : filter is_real (replicate pad nop) = [].
Proof.
  induction pad as [|pad IH]; [done|]. cbn [replicate].
  by rewrite filter_cons_False by (by intros []).
Qed.

Lemma filter_real_all (l : list bf_instruction) :
  Forall is_real l -> filter is_real l = l.
Proof.
  induction 1 as [|x l Hx _ IH]; [done|].
  by rewrite filter_cons_True, IH by done.
Qed.

(** X3. Substitution composes with the matcher.  After a span of a
    well-formed program has been overwritten with real instructions [repl]
    padded by [pad] [NOP]s, a scan at the same position with rules that
    [repl] satisfies reports the span [length repl]; and with one more rule,
    satisfied by the real instruction right behind the padding, the scan sees
    through the padding and reports [length repl + pad + 1]. *)
Theorem substitute_then_match (p : bf_program) (repl : list bf_instruction)
    (pad : nat) (rules : list bf_pattern_rule) (pos : Z) :
  well_formed p -> 0 <= pos -> repl <> [] ->
  Forall is_real repl -> Forall2 rule_ok repl rules ->
  pos + Z.of_nat (length repl + pad) < size p ->
  exists p',
    bf_program_substitute p (repl ++ replicate pad nop) pos
      (Z.of_nat (length repl + pad)) = Val (true, p') /\
    bf_program_match_sequence p' rules pos (Z.of_nat (length repl))
      = Val (Z.of_nat (length repl)) /\
    (forall next rule,
       slot p (pos + Z.of_nat (length repl + pad)) = Some next ->
       is_real next -> rule_ok next rule ->
       pos + Z.of_nat (length repl + pad) + 1 < size p ->
       bf_program_match_sequence p' (rules ++ [rule]) pos
         (Z.of_nat (length repl) + 1)
       = Val (Z.of_nat (length repl + pad) + 1)).
Proof.
  intros Hwf Hpos Hne Hreal Hok Hend.
  pose proof (well_formed_bounds p Hwf) as [Hblock Hsize].
  assert (Hlen : length (repl ++ replicate pad nop) = (length repl + pad)%nat)
    by (by rewrite length_app, length_replicate).
  destruct (substitute_succeeds p (repl ++ replicate pad nop) pos
              (Z.of_nat (length repl + pad)))
    as (p' & Hrun & Hsize' & Hcap' & _ & Hin & Hout);
    [lia | lia | lia | lia | unfold INT_MAX; lia | lia |].
  destruct (substitute_well_formed p _ pos _ true p' Hwf Hrun) as (Hwf' & _).
  assert (Hpos_len : (0 < length repl)%nat) by (destruct repl; [done | cbn; lia]).
  assert (Hrules : length rules = length repl)
    by (symmetry; by apply Forall2_length in Hok).
  assert (Hslots' : forall k : nat,
            (k < length repl + pad)%nat ->
            ir p' !! (Z.to_nat pos + k)%nat
            = (repl ++ replicate pad nop) !! k).
  { intros k Hk. specialize (Hin (Z.of_nat k) ltac:(lia)).
    rewrite slot_lookup, Nat2Z.id in Hin by lia. rewrite <- Hin.
    f_equal. lia. }
  exists p'. split; [done|]. split.
  - rewrite (match_reports_slots p' rules pos _ repl); try done; try lia.
    + intros k x Hk. pose proof (lookup_lt_Some _ _ _ Hk).
      rewrite Hslots' by lia. by rewrite lookup_app_l by lia.
    + destruct (last repl) as [y|] eqn:Hy; [|done].
      rewrite Forall_forall in Hreal. apply Hreal.
      by apply last_Some_elem_of.
    + rewrite length_take. lia.
    + rewrite filter_real_all by done. by rewrite take_ge by lia.
  - intros next rule Hnext Hnext_real Hnext_ok Hend'.
    apply slot_load in Hnext as [_ Hnext].
    rewrite (match_reports_slots p' (rules ++ [rule]) pos _
               (repl ++ replicate pad nop ++ [next])).
    + f_equal. rewrite !length_app, length_replicate. cbn. lia.
    + done.
    + done.
    + lia.
    + rewrite !length_app, length_replicate. cbn. lia.
    + intros k x Hk. pose proof (lookup_lt_Some _ _ _ Hk) as Hlt.
      rewrite !length_app, length_replicate in Hlt. cbn in Hlt.
      destruct (decide (k < length repl + pad)%nat) as [Hk' | Hk'].
      * rewrite Hslots' by done. rewrite app_assoc in Hk.
        by rewrite lookup_app_l in Hk by lia.
      * assert (k = (length repl + pad)%nat) as -> by lia.
        rewrite app_assoc, lookup_app_r in Hk by lia.
        replace (length repl + pad - length (repl ++ replicate pad nop))%nat
          with 0%nat in Hk by lia.
        injection Hk as <-.
        specialize (Hout (pos + Z.of_nat (length repl + pad)) ltac:(lia)).
        rewrite !slot_lookup in Hout by lia. rewrite <- Hnext, <- Hout.
        f_equal. lia.
    + rewrite app_assoc, last_snoc. done.
    + rewrite length_take, length_app. cbn. lia.
    + rewrite !filter_app, filter_real_all, filter_real_padding by done.
      rewrite (filter_cons_True _ next) by done. rewrite filter_nil. cbn.
      rewrite take_ge by (rewrite length_app; cbn; lia).
      apply Forall2_app; [done|]. constructor; [done | constructor].
Qed.

Lemma substitute_then_match_witness :
  exists p',
    bf_program_substitute skip_nop_halt_program
      ([ins BF_INS_CLEAR 0] ++ replicate 2 nop) 0 3 = Val (true, p') /\
    bf_program_match_sequence p' [loose BF_INS_CLEAR] 0 1 = Val 1 /\
    bf_program_match_sequence p' [loose BF_INS_CLEAR; loose BF_INS_JMP] 0 2
      = Val 4.
Proof.
  destruct (substitute_then_match skip_nop_halt_program [ins BF_INS_CLEAR 0]
              2 [loose BF_INS_CLEAR] 0) as (p' & Hrun & Hone & Hnext).
  - apply well_formed_program_of. simpl. lia.
  - lia.
  - discriminate.
  - constructor; [by unfold is_real | constructor].
  - constructor; [|constructor].
    split; [reflexivity|]. intros Hflag. discriminate Hflag.
  - reflexivity.
  - exists p'. split; [exact Hrun|]. split; [exact Hone|].
    apply (Hnext (ins BF_INS_JMP 5) (loose BF_INS_JMP)).
    + reflexivity.
    + by unfold is_real.
    + split; [reflexivity|]. intros Hflag. discriminate Hflag.
    + reflexivity.
Defined.

(** ** What a substitution can touch *)

(** Whatever the copy loop returns, it has copied [new_ir] into the slots
    [pos + i .. pos + len) of the block, which exist, and left the rest. *)
Lemma substitute_loop_inv new_ir pos len fuel :
  forall block i block',
    substitute_loop fuel block new_ir pos len i = Val block' ->
    0 <= i <= INT_MAX ->
    (len <= i /\ block' = block) \/
    (i < len <= INT_MAX /\ 0 <= pos + i /\
     pos + len <= Z.of_nat (length block) /\
     len <= Z.of_nat (length new_ir) /\
     length block' = length block /\
     (forall k, i <= k < len ->
        block' !! Z.to_nat (pos + k) = new_ir !! Z.to_nat k) /\
     (forall j : nat, ~ (pos + i <= Z.of_nat j < pos + len) ->
        block' !! j = block !! j)).
Proof.
  induction fuel as [|fuel IH]; intros block i block'; cbn [substitute_loop];
    [done|].
  intros Hrun Hi. unfold INT_MAX in Hi. rewrite to_size_t_id in Hrun by lia.
  destruct (Z.ltb_spec i len) as [Hround|]; [|left; by injection Hrun as <-].
  destruct (load new_ir i) as [x| |] eqn:Hx;
    cbn [mbind exec_bind] in Hrun; [|done..].
  apply load_inv in Hx as [_ Hx].
  destruct (int_add pos i) as [idx| |] eqn:Hidx;
    cbn [mbind exec_bind] in Hrun; [|done..].
  apply int_add_inv in Hidx as [-> _].
  destruct (store block (pos + i) x) as [block1| |] eqn:Hstore;
    cbn [mbind exec_bind] in Hrun; [|done..].
  apply store_inv in Hstore as [Hidx ->].
  destruct (int_add i 1) as [i'| |] eqn:Hi';
    cbn [mbind exec_bind] in Hrun; [|done..].
  apply int_add_inv in Hi' as [-> Hi'].
  pose proof (lookup_lt_Some _ _ _ Hx) as Hnew.
  right.
  destruct (IH _ _ _ Hrun) as [[Hlast ->] | (Hmore & Hpos' & Hblock & Hlen
                                          & Hlength & Hin & Hout)];
    [unfold INT_MAX; lia | |].
  - assert (len = i + 1) as -> by lia. unfold INT_MAX.
    split; [lia|]. split; [lia|]. split; [lia|]. split; [lia|].
    split; [by rewrite length_insert|]. split.
    + intros k Hk. assert (k = i) as -> by lia.
      by rewrite list_lookup_insert_eq by lia.
    + intros j Hj. apply list_lookup_insert_ne. lia.
  - rewrite length_insert in Hblock, Hlength.
    split; [lia|]. split; [lia|]. split; [lia|]. split; [lia|].
    split; [done|]. split.
    + intros k Hk. destruct (decide (k = i)) as [-> | Hne].
      * rewrite Hout by lia. by rewrite list_lookup_insert_eq by lia.
      * apply Hin. lia.
    + intros j Hj. rewrite Hout by lia. apply list_lookup_insert_ne. lia.
Qed.

(** X4. [bf_program_substitute] is all or nothing and stays inside the
    program.  Whatever it returns, length, capacity and the number of slots
    are as before.  When it returns [false] the program is unchanged.  When
    it returns [true] the span lies strictly inside the logical length
    ([pos + size < length], without wrap-around), its slots hold the
    replacement, and every slot outside the span is unchanged -- so the last
    instruction of the program and the slots behind the logical length are
    never written. *)
Theorem substitute_all_or_nothing (p : bf_program)
    (new_ir : list bf_instruction) (pos len : Z) (ok : bool) (p' : bf_program) :
  INT_MIN <= pos <= INT_MAX -> 0 <= len <= SIZE_MAX -> 0 <= size p ->
  bf_program_substitute p new_ir pos len = Val (ok, p') ->
  size p' = size p /\ capacity p' = capacity p /\
  length (ir p') = length (ir p) /\
  (ok = false -> p' = p) /\
  (ok = true ->
     pos + len < size p /\
     (forall k, 0 <= k < len -> slot p' (pos + k) = new_ir !! Z.to_nat k) /\
     (forall j, ~ (pos <= j < pos + len) -> slot p' j = slot p j) /\
     (forall j, size p - 1 <= j -> slot p' j = slot p j)).
Proof.
  intros Hpos Hlen Hsize. unfold bf_program_substitute.
  unfold INT_MIN, INT_MAX in Hpos. unfold SIZE_MAX, SIZE_WIDTH in Hlen.
  destruct (Z.leb_spec (size p) (to_size_t (to_size_t pos + len))) as [|Hguard];
    [by intros [= <- <-]|].
  destruct (substitute_loop _ _ _ _ _ _) as [block| |] eqn:Hloop;
    cbn [mbind exec_bind]; [|done..].
  intros [= <- <-]. cbn [size capacity ir].
  pose proof (substitute_loop_length _ _ _ _ _ _ _ Hloop) as Hlength.
  split; [done|]. split; [done|]. split; [done|]. split; [done|]. intros _.
  apply substitute_loop_inv in Hloop as [[Hzero ->] | Hwritten];
    [| | unfold INT_MAX; lia].
  - assert (len = 0) as -> by lia. rewrite Z.add_0_r in *.
    assert (Hin : pos < size p).
    { destruct (Z.le_gt_cases 0 pos); [|lia].
      by rewrite !(to_size_t_id pos) in Hguard by lia. }
    split; [done|]. split; [intros; lia|]. by split.
  - destruct Hwritten as (Hmore & Hpos' & Hblock & Hnew & _ & Hin & Hout).
    unfold INT_MAX in Hmore. rewrite Z.add_0_r in *.
    rewrite (to_size_t_id pos), (to_size_t_id (pos + len)) in Hguard by lia.
    assert (Hframe : forall j, ~ (pos <= j < pos + len) ->
              slot {| size := size p; capacity := capacity p; ir := block |} j
              = slot p j).
    { intros j Hj. unfold slot. cbn [ir].
      destruct (Z.ltb_spec j 0); [done|]. apply Hout. lia. }
    split; [done|]. split; [|split].
    + intros k Hk. rewrite slot_lookup by lia. cbn [ir]. apply Hin. lia.
    + done.
    + intros j Hj. apply Hframe. lia.
Qed.

Lemma substitute_all_or_nothing_witness :
  exists p',
    bf_program_substitute skip_nop_halt_program [ins BF_INS_CLEAR 0; nop] 1 2
      = Val (true, p') /\
    slot p' 4 = Some (ins BF_INS_HALT 0).
Proof.
  assert (Hrun : exists p',
            bf_program_substitute skip_nop_halt_program
              [ins BF_INS_CLEAR 0; nop] 1 2 = Val (true, p'))
    by (vm_compute; eauto).
  destruct Hrun as [p' Hrun]. exists p'. split; [exact Hrun|].
  destruct (substitute_all_or_nothing skip_nop_halt_program
              [ins BF_INS_CLEAR 0; nop] 1 2 true p')
    as (_ & _ & _ & _ & Htrue).
  - unfold INT_MIN, INT_MAX. lia.
  - unfold SIZE_MAX, SIZE_WIDTH. lia.
  - by vm_compute.
  - exact Hrun.
  - destruct (Htrue eq_refl) as (_ & _ & _ & Hlast).
    rewrite (Hlast 4) by (by vm_compute). reflexivity.
Defined.

(** X5. A substitution can be undone.  Writing a replacement into a span
    that ends in front of the last instruction, and then writing the former
    content of the span back, restores the program exactly. *)
Theorem substitute_undo (p : bf_program) (new_ir : list bf_instruction)
    (pos len : Z) :
  well_formed p ->
  0 <= pos -> 0 <= len -> pos + len < size p ->
  len <= Z.of_nat (length new_ir) ->
  exists p',
    bf_program_substitute p new_ir pos len = Val (true, p') /\
    bf_program_substitute p' (segment p pos len) pos len = Val (true, p).
Proof.
  intros Hwf Hpos Hlen Hend Hnew.
  pose proof (well_formed_bounds p Hwf) as [Hblock Hsize].
  destruct (substitute_succeeds p new_ir pos len)
    as (p' & Hrun & Hsize' & Hcap' & Hlength' & Hin' & Hout');
    [lia .. | unfold INT_MAX; lia | lia |].
  exists p'. split; [done|].
  assert (Hseg : length (segment p pos len) = Z.to_nat len).
  { unfold segment. rewrite length_take, length_drop. lia. }
  destruct (substitute_succeeds p' (segment p pos len) pos len)
    as (q & Hback & Hsize'' & Hcap'' & Hlength'' & Hin'' & Hout'');
    [lia .. | unfold INT_MAX; lia | lia |].
  rewrite Hback. do 2 f_equal.
  assert (Hir : ir q = ir p).
  { apply list_eq. intros j.
    destruct (decide (pos <= Z.of_nat j < pos + len)) as [Hj | Hj].
    - pose proof (Hin'' (Z.of_nat j - pos) ltac:(lia)) as Hq.
      replace (pos + (Z.of_nat j - pos)) with (Z.of_nat j) in Hq by lia.
      rewrite slot_lookup, Nat2Z.id in Hq by lia. rewrite Hq.
      unfold segment. rewrite lookup_take_lt, lookup_drop by lia.
      f_equal. lia.
    - pose proof (Hout'' (Z.of_nat j) Hj) as Hq.
      pose proof (Hout' (Z.of_nat j) Hj) as Hp'.
      rewrite !slot_lookup, !Nat2Z.id in Hq, Hp' by lia. congruence. }
  destruct p as [s c l], q as [s' c' l']. cbn in *. congruence.
Qed.

Lemma substitute_undo_witness :
  exists p',
    bf_program_substitute skip_nop_halt_program [ins BF_INS_CLEAR 0; nop] 1 2
      = Val (true, p') /\
    bf_program_substitute p' (segment skip_nop_halt_program 1 2) 1 2
      = Val (true, skip_nop_halt_program).
Proof.
  apply (substitute_undo skip_nop_halt_program [ins BF_INS_CLEAR 0; nop] 1 2).
  - apply well_formed_program_of. simpl. lia.
  - lia.
  - lia.
  - reflexivity.
  - simpl. lia.
Defined.

(** ** The empty program *)

Lemma to_size_t_nonneg x : 0 <= to_size_t x.
Proof. unfold to_size_t, SIZE_WIDTH. apply Z.mod_pos_bound. lia. Qed.

(** X6. On an empty program, such as [bf_program_create] returns, every scan
    reports no match and every substitution is refused and changes nothing,
    whatever the position, the count and the rule or replacement list. *)
Theorem empty_program_inert (p : bf_program) (rules : list bf_pattern_rule)
    (new_ir : list bf_instruction) (pos len : Z) :
  size p = 0 ->
  bf_program_match_sequence p rules pos len = Val 0 /\
  bf_program_substitute p new_ir pos len = Val (false, p).
Proof.
  intros Hempty. unfold bf_program_match_sequence, bf_program_substitute.
  rewrite Hempty. pose proof (to_size_t_nonneg (to_size_t pos + len)).
  by destruct (Z.leb_spec 0 (to_size_t (to_size_t pos + len))); [|lia].
Qed.

Lemma empty_program_inert_witness :
  bf_program_match_sequence fresh_program skip_nop_rules 0 2 = Val 0 /\
  bf_program_substitute fresh_program [nop] 0 1 = Val (false, fresh_program).
Proof. exact (empty_program_inert fresh_program skip_nop_rules [nop] 0 1 eq_refl). Defined.

(** ** A run of appends *)

(** X7. Appends accumulate.  Starting from a well-formed program, a run of
    appends during which the allocator never refuses and the ceiling of 65536
    instructions is not exceeded succeeds throughout: the length grows by the
    number of appended instructions, and the buffer holds the former content
    followed by the appended instructions in order. *)
Theorem appends_stored (p0 : bf_program)
    (l : list (bf_instruction * realloc_answer)) :
  well_formed p0 ->
  Forall (fun e => is_Some e.2) l ->
  size p0 + Z.of_nat (length l) <= BF_MAX_PROGRAM_SIZE ->
  exists p,
    appends p0 l = Val p /\ well_formed p /\
    size p = size p0 + Z.of_nat (length l) /\
    segment p 0 (size p) = segment p0 0 (size p0) ++ l.*1.
Proof.
  revert p0. induction l as [|[x heap] l IH]; intros p0 Hwf Hheap Hroom.
  - exists p0. cbn. split; [done|]. split; [done|]. split; [lia|].
    by rewrite app_nil_r.
  - apply Forall_cons_1 in Hheap as [[junk Hjunk] Hheap].
    cbn in Hjunk. subst heap. cbn [length] in Hroom.
    pose proof (well_formed_bounds p0 Hwf) as [Hblock0 _].
    destruct (append_cases p0 x (Some junk) Hwf)
      as [(p1 & Hrun & Hwf1 & Hsize1 & Hlast & Hkeep)
         | (_ & Hfull & [Hceil | ?])]; [| lia | done].
    destruct (IH p1 Hwf1 Hheap) as (p & Hruns & Hwf' & Hsize & Hseg); [lia|].
    exists p. cbn [appends]. rewrite Hrun. cbn [mbind exec_bind snd].
    split; [done|]. split; [done|]. split; [cbn [length]; lia|].
    rewrite Hseg. cbn [fmap list_fmap fst]. rewrite cons_middle, app_assoc.
    f_equal. apply segment_eq; [lia | |].
    + rewrite length_app. unfold segment. rewrite length_take, length_drop.
      cbn. lia.
    + intros k Hk. rewrite Z.add_0_l.
      destruct (decide (k = size p0)) as [-> | Hne].
      * rewrite Hlast. rewrite lookup_app_r
          by (unfold segment; rewrite length_take, length_drop; lia).
        unfold segment. rewrite length_take, length_drop.
        by replace (Z.to_nat (size p0)
                    - Z.to_nat (size p0)
                      `min` (length (ir p0) - Z.to_nat 0))%nat
          with 0%nat by lia.
      * rewrite Hkeep by lia. rewrite lookup_app_l
          by (unfold segment; rewrite length_take, length_drop; lia).
        unfold segment. rewrite lookup_take_lt, lookup_drop by lia.
        by rewrite slot_lookup by lia.
Qed.

Lemma appends_stored_witness :
  exists p,
    appends fresh_program
      [(ins BF_INS_INC_V 1, Some (fun _ => nop));
       (ins BF_INS_OUT 0, Some (fun _ => nop))] = Val p /\
    size p = 2 /\
    segment p 0 (size p) = [ins BF_INS_INC_V 1; ins BF_INS_OUT 0].
Proof.
  destruct (appends_stored fresh_program
              [(ins BF_INS_INC_V 1, Some (fun _ => nop));
               (ins BF_INS_OUT 0, Some (fun _ => nop))])
    as (p & Hrun & _ & Hsize & Hseg).
  - exact well_formed_fresh_program.
  - repeat constructor; by eexists.
  - by vm_compute.
  - exists p. split; [exact Hrun|]. split; [exact Hsize|]. exact Hseg.
Defined.

(** ** Whole batches *)

Lemma grow_whole_batches p heap ok p' :
  well_formed p -> whole_batches p ->
  bf_program_grow p heap = (ok, p') ->
  whole_batches p' /\
  (ok = true -> capacity p' = capacity p + INSTRUCTION_ALLOC_COUNT).
Proof.
  intros (Hsize & Hblock & Hinv) (k & Hk & Hcap).
  unfold size_invariant in Hinv. rewrite grow_unfold by lia.
  unfold BF_MAX_PROGRAM_SIZE, INSTRUCTION_ALLOC_COUNT in *.
  destruct (Z.ltb_spec (capacity p) 65536);
    [|intros [= <- <-]; split; [by exists k | done]].
  destruct heap as [junk|]; [|intros [= <- <-]; split; [by exists k | done]].
  intros [= <- <-]. cbn [capacity]. split; [|intros _; lia].
  exists (k + 1). cbn [capacity]. unfold INSTRUCTION_ALLOC_COUNT. lia.
Qed.

Lemma grow_refused p heap q : bf_program_grow p heap = (false, q) -> q = p.
Proof.
  unfold bf_program_grow.
  destruct (BF_MAX_PROGRAM_SIZE <? _); [destruct (capacity p <? _)|];
    destruct heap; by intros [= <-].
Qed.

Lemma append_capacity p x heap ok p' :
  bf_program_append p x heap = Val (ok, p') ->
  capacity p' = capacity p \/
  exists q, bf_program_grow p heap = (true, q) /\ capacity p' = capacity q.
Proof.
  unfold bf_program_append.
  destruct (capacity p <=? size p).
  - destruct (bf_program_grow p heap) as [[|] q] eqn:Hgrow; cbn [negb].
    + destruct (store _ _ _) as [block| |]; cbn [mbind exec_bind]; [|done..].
      intros [= <- <-]. right. by exists q.
    + intros [= <- <-]. left. by rewrite (grow_refused p heap q Hgrow).
  - cbn [negb].
    destruct (store _ _ _) as [block| |]; cbn [mbind exec_bind]; [|done..].
    intros [= <- <-]. by left.
Qed.

Lemma reachable_whole_batches p : reachable p -> whole_batches p.
Proof.
  induction 1 as [a b p Hcreate | p heap ok p' Hreach IH Hrun
                 | p x heap ok p' Hreach IH Hrun
                 | p new_ir pos len ok p' Hreach IH Hrun
                 | p rules pos len n _ IH _].
  - destruct a, b; cbn in Hcreate; [|done..]. injection Hcreate as <-.
    exists 1. by vm_compute.
  - apply reachable_well_formed in Hreach.
    by apply (grow_whole_batches p heap ok p').
  - apply reachable_well_formed in Hreach as Hwf.
    destruct (append_capacity p x heap ok p' Hrun) as [Hsame | (q & Hgrow & Hsame)].
    + destruct IH as (k & Hk & Hcap). exists k. by rewrite Hsame.
    + destruct (grow_whole_batches p heap true q Hwf IH Hgrow)
        as [(k & Hk & Hcap) _].
      exists k. by rewrite Hsame.
  - apply reachable_well_formed in Hreach as Hwf.
    destruct (substitute_well_formed p new_ir pos len ok p' Hwf Hrun)
      as (_ & _ & Hsame).
    destruct IH as (k & Hk & Hcap). exists k. by rewrite Hsame.
  - done.
Qed.

(** X8. Capacities come in whole batches.  The capacity of every program
    that creation and the container's operations can produce is a multiple of
    the allocation batch, between 1 and 64 batches of 1024 slots; hence a
    successful [bf_program_grow] on such a program adds exactly 1024 slots,
    and the clamp to 65536 never cuts a batch short. *)
Theorem capacity_whole_batches (p : bf_program) :
  reachable p ->
  whole_batches p /\
  (forall heap p',
     bf_program_grow p heap = (true, p') ->
     capacity p' = capacity p + INSTRUCTION_ALLOC_COUNT /\
     whole_batches p').
Proof.
  intros Hreach. split; [by apply reachable_whole_batches|].
  intros heap p' Hgrow.
  destruct (grow_whole_batches p heap true p') as [Hwhole Hcap];
    [by apply reachable_well_formed | by apply reachable_whole_batches | done |].
  split; [by apply Hcap | done].
Qed.

Lemma capacity_whole_batches_witness :
  whole_batches fresh_program /\
  exists p',
    bf_program_grow fresh_program (Some (fun _ => nop)) = (true, p') /\
    capacity p' = 2048.
Proof.
  destruct (capacity_whole_batches fresh_program
              (reach_create true true fresh_program eq_refl)) as [Hwhole Hgrow].
  split; [exact Hwhole|].
  eexists. split; [reflexivity|].
  exact (proj1 (Hgrow (Some (fun _ => nop)) _ eq_refl)).
Defined.

(** ** Spans that reach the end *)

(** X9. The entry checks.  A span whose end [pos + size] reaches the last
    instruction or lies behind it -- with the sum representable as a
    [size_t] -- is turned down by both operations: the matcher reports no
    match and the substitution is refused, leaving the program as it is.  In
    particular no span may include the last instruction of a program. *)
Theorem span_at_end_refused (p : bf_program) (rules : list bf_pattern_rule)
    (new_ir : list bf_instruction) (pos len : Z) :
  0 <= size p -> INT_MIN <= pos -> size p <= pos + len <= SIZE_MAX ->
  bf_program_match_sequence p rules pos len = Val 0 /\
  bf_program_substitute p new_ir pos len = Val (false, p).
Proof.
  intros Hsize Hpos Hspan.
  unfold bf_program_match_sequence, bf_program_substitute.
  unfold INT_MIN in Hpos. unfold SIZE_MAX, SIZE_WIDTH in Hspan.
  assert (Hsum : to_size_t (to_size_t pos + len) = pos + len).
  { unfold to_size_t, SIZE_WIDTH. rewrite Zplus_mod_idemp_l.
    apply Z.mod_small. lia. }
  rewrite Hsum. by destruct (Z.leb_spec (size p) (pos + len)); [|lia].
Qed.

Lemma span_at_end_refused_witness :
  bf_program_match_sequence skip_nop_halt_program [loose BF_INS_HALT] 4 1 = Val 0 /\
  bf_program_substitute skip_nop_halt_program [nop] 4 1
    = Val (false, skip_nop_halt_program).
Proof.
  apply span_at_end_refused.
  - by vm_compute.
  - by vm_compute.
  - split; by vm_compute.
Defined.

(** ** The matcher reads the logical program only *)

(** Two runs of the scan loop on programs that agree in their length and in
    the slots below it end alike, whatever their loop bounds, as long as
    neither bound is exhausted. *)
Lemma match_loop_logical p q rules pos fuel :
  size p = size q ->
  (forall k : nat, Z.of_nat k < size p -> ir p !! k = ir q !! k) ->
  forall fuel' i mut_size real_iters,
    match_loop fuel p rules pos i mut_size real_iters <> OutOfFuel ->
    match_loop fuel' q rules pos i mut_size real_iters <> OutOfFuel ->
    match_loop fuel' q rules pos i mut_size real_iters
      = match_loop fuel p rules pos i mut_size real_iters.
Proof.
  intros Hsize Hslots.
  induction fuel as [|fuel IH]; intros fuel' i mut_size real_iters;
    [done|]. destruct fuel' as [|fuel']; [done|]. cbn [match_loop].
  destruct (Z.ltb_spec i mut_size) as [Hround|]; [|done].
  destruct (int_add pos mut_size) as [bound| |] eqn:Hbound;
    cbn [mbind exec_bind]; [|done..].
  apply int_add_inv in Hbound as [-> Hbound].
  rewrite <- Hsize.
  destruct (Z.ltb_spec (to_size_t (pos + mut_size)) (size p)) as [Hspan|];
    [|done].
  destruct (int_add pos i) as [idx| |] eqn:Hidx;
    cbn [mbind exec_bind]; [|done..].
  apply int_add_inv in Hidx as [-> Hidx].
  assert (Hload : load (ir q) (pos + i) = load (ir p) (pos + i)).
  { unfold load. destruct (Z.ltb_spec (pos + i) 0); [done|].
    rewrite to_size_t_id in Hspan by lia. rewrite Hslots; [done | lia]. }
  rewrite Hload.
  destruct (load (ir p) (pos + i)) as [instr| |];
    cbn [mbind exec_bind]; [|done..].
  destruct (load rules real_iters) as [rule| |];
    cbn [mbind exec_bind]; [|done..].
  destruct (opcode instr =? BF_INS_NOP).
  - destruct (int_add mut_size 1) as [m| |]; cbn [mbind exec_bind]; [|done..].
    destruct (int_add i 1) as [i'| |]; cbn [mbind exec_bind]; [|done..].
    apply IH.
  - destruct (negb _); [done|]. destruct (_ && _); [done|].
    destruct (int_add real_iters 1) as [r| |]; cbn [mbind exec_bind]; [|done..].
    destruct (int_add i 1) as [i'| |]; cbn [mbind exec_bind]; [|done..].
    apply IH.
Qed.

(** X10. The matcher reads the logical program only.  Two programs of the
    same length that hold the same instructions below that length get the
    same answer from the matcher for every rule list, position and count:
    capacity, and whatever the slots behind the logical length hold, play no
    part.  A reallocation by [bf_program_grow] therefore changes no result. *)
Theorem match_sequence_logical (p q : bf_program)
    (rules : list bf_pattern_rule) (pos len : Z) :
  size p = size q ->
  (forall k, 0 <= k < size p -> slot p k = slot q k) ->
  bf_program_match_sequence q rules pos len
    = bf_program_match_sequence p rules pos len.
Proof.
  intros Hsize Hslots.
  pose proof (match_sequence_terminates p rules pos len) as Hp.
  pose proof (match_sequence_terminates q rules pos len) as Hq.
  unfold bf_program_match_sequence in *. rewrite <- Hsize in *.
  destruct (_ || _); [done|].
  rewrite (match_loop_logical p q rules pos (S (length (ir p))) Hsize); [done | | |].
  - intros k Hk. specialize (Hslots (Z.of_nat k) ltac:(lia)).
    by rewrite !slot_lookup, Nat2Z.id in Hslots by lia.
  - intros Hfuel. by rewrite Hfuel in Hp.
  - intros Hfuel. by rewrite Hfuel in Hq.
Qed.

Lemma match_sequence_logical_witness :
  exists p',
    bf_program_grow skip_nop_halt_program (Some (fun _ => ins BF_INS_JMP 5))
      = (true, p') /\
    bf_program_match_sequence p' skip_nop_rules 0 2
      = bf_program_match_sequence skip_nop_halt_program skip_nop_rules 0 2.
Proof.
  eexists. split; [reflexivity|].
  apply match_sequence_logical.
  - reflexivity.
  - intros k Hk. change (size skip_nop_halt_program) with 5 in Hk.
    unfold slot. destruct (k <? 0); [reflexivity|].
    assert (Hcases : Z.to_nat k = 0%nat \/ Z.to_nat k = 1%nat \/
                     Z.to_nat k = 2%nat \/ Z.to_nat k = 3%nat \/
                     Z.to_nat k = 4%nat) by lia.
    destruct Hcases as [E | [E | [E | [E | E]]]]; rewrite E; reflexivity.
Defined.

(** * Properties of mlbf.c *)

(** ** Reading a stream *)

Lemma length_realloc_chars block n junk :
  0 <= n -> Z.of_nat (length (realloc_chars block n junk)) = n.
Proof.
  intros Hn. unfold realloc_chars.
  rewrite length_app, length_take, length_fmap, length_seq. lia.
Qed.

Lemma take_realloc_chars block n junk (k : nat) :
  (k <= length block)%nat -> Z.of_nat (length block) <= n ->
  take k (realloc_chars block n junk) = take k block.
Proof.
  intros Hk Hn. unfold realloc_chars.
  rewrite (take_ge block) by lia. by rewrite take_app_le by lia.
Qed.

(** The number of reallocations still to come, one character further on. *)
Lemma grows_step_grow (n : Z) :
  0 <= n -> grows 1 (n + 1) = grows STDIN_ALLOC_SIZE n + 1.
Proof.
  intros Hn. unfold grows, STDIN_ALLOC_SIZE.
  destruct (Z.ltb_spec (n + 1) 1); [lia|].
  destruct (Z.ltb_spec n 64); Z.div_mod_to_equations; lia.
Qed.

Lemma grows_step_room (room n : Z) :
  1 < room -> 0 <= n -> grows room (n + 1) = grows (room - 1) n.
Proof.
  intros Hroom Hn. unfold grows, STDIN_ALLOC_SIZE.
  destruct (Z.ltb_spec (n + 1) room); destruct (Z.ltb_spec n (room - 1));
    try lia.
  by replace (n + 1 - room) with (n - (room - 1)) by lia.
Qed.

Lemma grows_nonneg room n : 0 <= n -> 0 <= grows room n.
Proof.
  intros Hn. unfold grows, STDIN_ALLOC_SIZE.
  destruct (Z.ltb_spec n room); [lia|]. Z.div_mod_to_equations. lia.
Qed.

(** The loop of [read_file] from a state in which the block has room for one
    more character: it ends with the characters read appended to the block
    when every reallocation it needs is granted, and leaves through
    [goto fail] as soon as one is refused. *)
Lemma read_file_loop_spec heap :
  forall input calls str len size,
    0 <= len < size -> Z.of_nat (length str) = size ->
    size + STDIN_ALLOC_SIZE * (Z.of_nat (length input) + 1) < 2 ^ 64 ->
    let g := grows (size - len) (Z.of_nat (length input)) in
    ((forall k : nat, Z.of_nat k < g -> is_Some (heap (calls + k)%nat)) ->
     exists str',
       read_file_loop input heap calls str len size
         = Val (Some (str', len + Z.of_nat (length input))) /\
       Z.of_nat (length str') = size + STDIN_ALLOC_SIZE * g /\
       take (Z.to_nat (len + Z.of_nat (length input))) str'
         = take (Z.to_nat len) str ++ input) /\
    (forall k : nat, Z.of_nat k < g -> heap (calls + k)%nat = None ->
     read_file_loop input heap calls str len size = Val None).
Proof.
  induction input as [|ch input IH]; intros calls str len size Hlen Hstr Hfit g.
  - subst g. cbn [length read_file_loop].
    assert (Hnone : grows (size - len) (Z.of_nat 0) = 0).
    { unfold grows. by destruct (Z.ltb_spec (Z.of_nat 0) (size - len)); [|lia]. }
    rewrite Hnone. split; [|intros; lia].
    intros _. exists str. rewrite Z.add_0_r, app_nil_r.
    split; [done|]. split; [lia | done].
  - subst g. cbn [length] in Hfit |- *. cbn [read_file_loop].
    unfold STDIN_ALLOC_SIZE in Hfit.
    rewrite store_Val by lia. cbn [mbind exec_bind].
    rewrite (to_size_t_id (len + 1)) by lia.
    assert (Hprefix : take (Z.to_nat (len + 1)) (<[Z.to_nat len := ch]> str)
                      = take (Z.to_nat len) str ++ [ch]).
    { replace (Z.to_nat (len + 1)) with (S (Z.to_nat len)) by lia.
      rewrite (take_S_r _ _ ch) by (apply list_lookup_insert_eq; lia).
      by rewrite take_insert_ge by lia. }
    replace (Z.of_nat (S (length input))) with (Z.of_nat (length input) + 1)
      in * by lia.
    destruct (Z.leb_spec size (len + 1)) as [Hfull | Hroom].
    + assert (size - len = 1) as Hone by lia. rewrite Hone.
      rewrite grows_step_grow by lia.
      rewrite (to_size_t_id (size + STDIN_ALLOC_SIZE))
        by (unfold STDIN_ALLOC_SIZE; lia).
      pose proof (grows_nonneg STDIN_ALLOC_SIZE (Z.of_nat (length input))
                    ltac:(lia)) as Hg.
      destruct (heap calls) as [junk|] eqn:Hjunk.
      * destruct (IH (S calls)
                    (realloc_chars (<[Z.to_nat len := ch]> str)
                       (size + STDIN_ALLOC_SIZE) junk)
                    (len + 1) (size + STDIN_ALLOC_SIZE))
          as [IHok IHfail].
        { unfold STDIN_ALLOC_SIZE. lia. }
        { apply length_realloc_chars. unfold STDIN_ALLOC_SIZE. lia. }
        { unfold STDIN_ALLOC_SIZE. lia. }
        replace (size + STDIN_ALLOC_SIZE - (len + 1)) with STDIN_ALLOC_SIZE
          in IHok, IHfail by lia.
        split.
        -- intros Hheap.
           destruct IHok as (str' & Hrun & Hlength & Htake).
           { intros k Hk.
             replace (S calls + k)%nat with (calls + S k)%nat by lia.
             apply Hheap. lia. }
           exists str'. rewrite Hrun.
           split; [do 3 f_equal; lia|]. split; [lia|].
           replace (len + (Z.of_nat (length input) + 1))
             with (len + 1 + Z.of_nat (length input)) by lia.
           rewrite Htake, take_realloc_chars, Hprefix
             by (rewrite ?length_insert; unfold STDIN_ALLOC_SIZE; lia).
           by rewrite <- app_assoc.
        -- intros k Hk Hrefused.
           destruct k as [|k];
             [rewrite Nat.add_0_r in Hrefused; congruence|].
           apply (IHfail k); [lia|].
           by replace (S calls + k)%nat with (calls + S k)%nat by lia.
      * split; [|done]. intros Hheap.
        destruct (Hheap 0%nat ltac:(lia)) as [junk Hsome].
        rewrite Nat.add_0_r in Hsome. congruence.
    + rewrite grows_step_room by lia.
      destruct (IH calls (<[Z.to_nat len := ch]> str) (len + 1) size)
        as [IHok IHfail]; [lia | by rewrite length_insert
                          | unfold STDIN_ALLOC_SIZE; lia |].
      replace (size - (len + 1)) with (size - len - 1) in IHok, IHfail by lia.
      split.
      * intros Hheap. destruct (IHok Hheap) as (str' & Hrun & Hlength & Htake).
        exists str'. rewrite Hrun.
        split; [do 3 f_equal; lia|]. split; [done|].
        replace (len + (Z.of_nat (length input) + 1))
          with (len + 1 + Z.of_nat (length input)) by lia.
        by rewrite Htake, Hprefix, <- app_assoc.
      * done.
Qed.

Lemma c_string_text (text rest : list ascii) :
  c_string (text ++ zero :: rest) = Val (until_nul text).
Proof.
  induction text as [|c text IH]; [done|]. cbn [app c_string until_nul].
  destruct (Ascii.eqb c zero); [done|]. by rewrite IH.
Qed.

(** The block is not full when the stream ends. *)
Lemma grows_room size n :
  1 <= size -> 0 <= n -> n < size + STDIN_ALLOC_SIZE * grows size n.
Proof.
  intros Hsize Hn. unfold grows, STDIN_ALLOC_SIZE.
  destruct (Z.ltb_spec n size); [lia|]. Z.div_mod_to_equations. lia.
Qed.

Lemma read_file_enter input size heap :
  read_file input size true heap =
    r ← read_file_loop input heap 0 (replicate (Z.to_nat size) zero) 0 size;
    match r with
    | None => Val None
    | Some (str, len) => str ← store str len zero; Val (Some str)
    end.
Proof. done. Qed.

(** X11. [read_file] returns the text of the stream as a C string.  With an
    initial size of at least 1, when [calloc] and every [realloc] the run
    needs are granted, the call returns a block that starts with the
    characters of the stream followed by the terminating [zero]; the block
    has grown by [grows size n] batches of 64 bytes, and read as a C string
    it is the stream up to its first [zero] character. *)
Theorem read_file_text (input : list ascii) (size : Z) (heap : realloc_answers) :
  let n := Z.of_nat (length input) in
  1 <= size -> size + STDIN_ALLOC_SIZE * (n + 1) < 2 ^ 64 ->
  (forall k : nat, Z.of_nat k < grows size n -> is_Some (heap k)) ->
  exists block,
    read_file input size true heap = Val (Some block) /\
    Z.of_nat (length block) = size + STDIN_ALLOC_SIZE * grows size n /\
    take (S (length input)) block = input ++ [zero] /\
    c_string block = Val (until_nul input).
Proof.
  intros n Hsize Hfit Hheap. subst n.
  destruct (read_file_loop_spec heap input 0 (replicate (Z.to_nat size) zero)
              0 size) as [Hok _];
    [lia | rewrite length_replicate; lia | done |].
  rewrite Z.sub_0_r in Hok.
  destruct (Hok Hheap) as (str & Hrun & Hlength & Htake).
  rewrite Z.add_0_l in Hrun, Htake. rewrite Nat2Z.id in Htake.
  cbn [Z.to_nat take app] in Htake.
  pose proof (grows_room size (Z.of_nat (length input)) Hsize ltac:(lia)) as Hroom.
  rewrite read_file_enter, Hrun. cbn [mbind exec_bind].
  rewrite store_Val by lia. cbn [mbind exec_bind]. rewrite Nat2Z.id.
  assert (Htext : take (S (length input)) (<[length input := zero]> str)
                  = input ++ [zero]).
  { rewrite (take_S_r _ _ zero) by (apply list_lookup_insert_eq; lia).
    by rewrite take_insert_ge, Htake by lia. }
  eexists. split; [done|]. split; [by rewrite length_insert|].
  split; [done|].
  rewrite <- (take_drop (S (length input)) (<[length input := zero]> str)).
  rewrite Htext, <- app_assoc. apply c_string_text.
Qed.

Lemma read_file_text_witness :
  exists block,
    read_file (String.list_ascii_of_string "+[-]") 2 true
      (fun _ => Some (fun _ => zero)) = Val (Some block) /\
    Z.of_nat (length block) = 66 /\
    c_string block = Val (String.list_ascii_of_string "+[-]").
Proof.
  destruct (read_file_text (String.list_ascii_of_string "+[-]") 2
              (fun _ => Some (fun _ => zero)))
    as (block & Hrun & Hlength & _ & Htext).
  - lia.
  - by vm_compute.
  - intros k _. by eexists.
  - exists block. split; [exact Hrun|]. split; [exact Hlength | exact Htext].
Defined.

(** Either every reallocation among the first [g] is granted, or one of them
    is refused. *)
Lemma realloc_answers_cases (heap : realloc_answers) (g : nat) :
  (forall k : nat, (k < g)%nat -> is_Some (heap k)) \/
  (exists k : nat, (k < g)%nat /\ heap k = None).
Proof.
  induction g as [|g [IH | (k & Hk & Hnone)]].
  - left. intros k Hk. lia.
  - destruct (heap g) as [junk|] eqn:Hg.
    + left. intros k Hk. destruct (decide (k = g)) as [-> | Hne];
        [by rewrite Hg | apply IH; lia].
    + right. exists g. split; [lia | done].
  - right. exists k. split; [lia | done].
Qed.

(** The two ways [read_file] ends when it starts with room for a character. *)
Lemma read_file_cases (input : list ascii) (size : Z) (calloc_str : bool)
    (heap : realloc_answers) :
  1 <= size ->
  size + STDIN_ALLOC_SIZE * (Z.of_nat (length input) + 1) < 2 ^ 64 ->
  (calloc_str = true /\
   (forall k : nat,
      Z.of_nat k < grows size (Z.of_nat (length input)) -> is_Some (heap k)) /\
   exists block, read_file input size calloc_str heap = Val (Some block)) \/
  ((calloc_str = false \/
    exists k : nat,
      Z.of_nat k < grows size (Z.of_nat (length input)) /\ heap k = None) /\
   read_file input size calloc_str heap = Val None).
Proof.
  intros Hsize Hfit.
  destruct calloc_str; [|right; split; [by left | done]].
  pose proof (grows_nonneg size (Z.of_nat (length input)) ltac:(lia)) as Hg.
  destruct (read_file_loop_spec heap input 0 (replicate (Z.to_nat size) zero)
              0 size) as [Hok Hfail];
    [lia | rewrite length_replicate; lia | done |].
  rewrite Z.sub_0_r in Hok, Hfail.
  destruct (realloc_answers_cases heap
              (Z.to_nat (grows size (Z.of_nat (length input)))))
    as [Hgranted | (k & Hk & Hrefused)].
  - left. split; [done|].
    assert (Hheap : forall k : nat,
              Z.of_nat k < grows size (Z.of_nat (length input)) ->
              is_Some (heap k)) by (intros k Hk; apply Hgranted; lia).
    split; [done|].
    destruct (Hok Hheap) as (str & Hrun & Hlength & _).
    pose proof (grows_room size (Z.of_nat (length input)) Hsize ltac:(lia)).
    rewrite read_file_enter, Hrun. cbn [mbind exec_bind].
    rewrite store_Val by lia. cbn [mbind exec_bind]. by eexists.
  - right. split; [right; exists k; split; [lia | done]|].
    by rewrite read_file_enter, (Hfail k) by (done || lia).
Qed.

(** X12. [read_file] returns a null pointer exactly when an allocation is
    refused.  With an initial size of at least 1 the call always returns --
    it never writes outside its block --, and the result is null if and only
    if [calloc] was refused or one of the [grows size n] reallocations the
    stream needs was refused. *)
Theorem read_file_null (input : list ascii) (size : Z) (calloc_str : bool)
    (heap : realloc_answers) :
  let n := Z.of_nat (length input) in
  1 <= size -> size + STDIN_ALLOC_SIZE * (n + 1) < 2 ^ 64 ->
  exists r,
    read_file input size calloc_str heap = Val r /\
    (r = None <->
     calloc_str = false \/
     exists k : nat, Z.of_nat k < grows size n /\ heap k = None).
Proof.
  intros n Hsize Hfit. subst n.
  destruct (read_file_cases input size calloc_str heap Hsize Hfit)
    as [(-> & Hgranted & block & Hrun) | (Hrefused & Hrun)].
  - exists (Some block). split; [done|]. split; [done|].
    intros [? | (k & Hk & Hnone)]; [done|].
    destruct (Hgranted k Hk) as [junk Hsome]. congruence.
  - exists None. by split.
Qed.

Lemma read_file_null_witness :
  exists r,
    read_file (String.list_ascii_of_string "+[-]") 2 true (fun _ => None) = Val r /\
    r = None.
Proof.
  destruct (read_file_null (String.list_ascii_of_string "+[-]") 2 true
              (fun _ => None)) as (r & Hrun & Hnull).
  - lia.
  - by vm_compute.
  - exists r. split; [exact Hrun|]. apply Hnull. right.
    exists 0%nat. split; [by vm_compute | reflexivity].
Defined.

(** X13. An initial size of 0 is not survived.  When [calloc] hands out a
    block for 0 bytes, the first character stored -- or, on an empty stream,
    the terminating [zero] -- is written behind the block: the call runs into
    undefined behaviour whatever the stream holds. *)
Theorem read_file_zero_size (input : list ascii) (heap : realloc_answers) :
  read_file input 0 true heap = Undef.
Proof. by destruct input. Qed.

(** ** The program *)

(** X14. [main] echoes its input as a C string.  When all allocations are
    granted, [main] writes the characters of the standard input up to the
    first [zero] character, then a newline, and exits with status 0; when
    [calloc] for the text, a reallocation the text needs, or [calloc] for the
    virtual machine is refused, it writes nothing and exits with status 1. *)
Theorem main_echo (stdin : list ascii) (calloc_str : bool)
    (heap : realloc_answers) (calloc_vm : bool) :
  let n := Z.of_nat (length stdin) in
  STDIN_ALLOC_SIZE * (n + 2) < 2 ^ 64 ->
  (calloc_str = true -> calloc_vm = true ->
   (forall k : nat, Z.of_nat k < grows STDIN_ALLOC_SIZE n -> is_Some (heap k)) ->
   main stdin calloc_str heap calloc_vm = Val (0, until_nul stdin ++ [newline])) /\
  (calloc_str = false \/ calloc_vm = false \/
   (exists k : nat, Z.of_nat k < grows STDIN_ALLOC_SIZE n /\ heap k = None) ->
   main stdin calloc_str heap calloc_vm = Val (1, [])).
Proof.
  intros n Hfit. subst n. unfold main.
  assert (Hsize : 1 <= STDIN_ALLOC_SIZE) by done.
  assert (Hfit' : STDIN_ALLOC_SIZE
                  + STDIN_ALLOC_SIZE * (Z.of_nat (length stdin) + 1) < 2 ^ 64)
    by (unfold STDIN_ALLOC_SIZE in *; lia).
  split.
  - intros -> -> Hheap.
    destruct (read_file_loop_spec heap stdin 0
                (replicate (Z.to_nat STDIN_ALLOC_SIZE) zero) 0 STDIN_ALLOC_SIZE)
      as [Hok _]; [done | done | done |].
    rewrite Z.sub_0_r in Hok.
    destruct (Hok Hheap) as (str & Hrun & Hlength & Htake).
    rewrite Z.add_0_l in Hrun, Htake. rewrite Nat2Z.id in Htake.
    cbn [Z.to_nat take app] in Htake.
    pose proof (grows_room STDIN_ALLOC_SIZE (Z.of_nat (length stdin)) Hsize
                  ltac:(lia)) as Hroom.
    rewrite read_file_enter, Hrun. cbn [mbind exec_bind].
    rewrite store_Val by lia. cbn [mbind exec_bind create_bf_vm negb src].
    rewrite Nat2Z.id.
    rewrite <- (take_drop (S (length stdin)) (<[length stdin := zero]> str)).
    rewrite (take_S_r _ _ zero) by (apply list_lookup_insert_eq; lia).
    rewrite take_insert_ge, Htake, <- app_assoc by lia.
    cbn [app]. by rewrite c_string_text.
  - intros Hrefused.
    destruct (read_file_cases stdin STDIN_ALLOC_SIZE calloc_str heap Hsize Hfit')
      as [(-> & Hgranted & block & Hrun) | (_ & Hrun)];
      rewrite Hrun; cbn [mbind exec_bind].
    + destruct Hrefused as [? | [-> | (k & Hk & Hnone)]]; [done | done |].
      destruct (Hgranted k Hk) as [junk Hsome]. congruence.
    + by destruct calloc_vm.
Qed.

Lemma main_echo_witness :
  main (String.list_ascii_of_string "+[-]") true (fun _ => None) true
    = Val (0, String.list_ascii_of_string "+[-]" ++ [newline]) /\
  main (String.list_ascii_of_string "+[-]") true (fun _ => None) false
    = Val (1, []).
Proof.
  split.
  - apply (proj1 (main_echo (String.list_ascii_of_string "+[-]") true
                    (fun _ => None) true ltac:(by vm_compute)));
      [reflexivity | reflexivity |].
    intros k Hk. vm_compute in Hk. destruct k; discriminate Hk.
  - apply (proj2 (main_echo (String.list_ascii_of_string "+[-]") true
                    (fun _ => None) false ltac:(by vm_compute))).
    right. left. reflexivity.
Defined.

(** * Strict and loose rules at every comparison *)

(** On a well-formed program, with enough rules in the list, no round of the
    scan runs into undefined behaviour: every index it reads lies below the
    logical length, every rule it reads is one of the first [len], and no
    [int] overflows. *)
Lemma match_loop_defined p (rules : list bf_pattern_rule) pos len fuel :
  well_formed p -> 0 <= pos -> len <= Z.of_nat (length rules) ->
  forall i mut_size real_iters,
    0 <= real_iters <= i -> mut_size - i = len - real_iters ->
    pos + mut_size <= size p ->
    match_loop fuel p rules pos i mut_size real_iters <> Undef.
Proof.
  intros Hwf Hpos Hrules. apply well_formed_bounds in Hwf as [Hblock Hsize].
  induction fuel as [|fuel IH]; intros i mut_size real_iters Hcount Hbalance
    Hend; cbn [match_loop]; [done|].
  destruct (Z.ltb_spec i mut_size) as [Hround|]; [|done].
  rewrite (int_add_Val pos mut_size) by lia. cbn [mbind exec_bind].
  rewrite to_size_t_id by lia.
  destruct (Z.ltb_spec (pos + mut_size) (size p)) as [Hspan|]; [|done].
  rewrite (int_add_Val pos i) by lia. cbn [mbind exec_bind].
  destruct (lookup_lt_is_Some_2 (ir p) (Z.to_nat (pos + i))) as [instr Hinstr];
    [lia|].
  destruct (lookup_lt_is_Some_2 rules (Z.to_nat real_iters)) as [rule Hrule];
    [lia|].
  rewrite (load_Val _ _ instr), (load_Val _ _ rule) by (done || lia).
  cbn [mbind exec_bind].
  rewrite (int_add_Val mut_size 1), (int_add_Val i 1),
    (int_add_Val real_iters 1) by lia.
  cbn [mbind exec_bind].
  destruct (opcode instr =? BF_INS_NOP); [apply IH; lia|].
  destruct (negb _); [done|]. destruct (_ && _); [done|]. apply IH; lia.
Qed.

(** Under the same conditions the matcher returns a value. *)
Lemma match_sequence_defined p (rules : list bf_pattern_rule) pos len :
  well_formed p -> 0 <= pos <= INT_MAX -> 0 <= len <= SIZE_MAX ->
  len <= Z.of_nat (length rules) ->
  exists n, bf_program_match_sequence p rules pos len = Val n.
Proof.
  intros Hwf [Hpos Hint] [Hlen Hmax] Hrules.
  pose proof (well_formed_bounds p Hwf) as [Hblock Hsize].
  pose proof (match_sequence_terminates p rules pos len) as Hfuel.
  unfold INT_MAX in Hint. unfold SIZE_MAX, SIZE_WIDTH in Hmax.
  unfold bf_program_match_sequence in *.
  rewrite (to_size_t_id pos) in * by lia.
  destruct (Z.leb_spec (size p) (to_size_t (pos + len))) as [|Hguard];
    [by exists 0|].
  destruct (Z.leb_spec len 0) as [|Hsome]; [by exists 0|]. cbn [orb] in *.
  destruct (Z.le_gt_cases (2 ^ 64) (pos + len)) as [Hwrap | Hfits].
  - assert (Hneg : to_int len < 0).
    { unfold to_int. Z.div_mod_to_equations. lia. }
    rewrite match_loop_counted by lia. cbn [mbind exec_bind].
    change (to_size_t 0) with 0. destruct (Z.eqb_spec 0 len); [lia|].
    by exists 0.
  - rewrite to_size_t_id in Hguard by lia.
    rewrite (to_int_id len) in * by lia.
    pose proof (match_loop_defined p rules pos len (S (length (ir p))) Hwf Hpos
                  Hrules 0 len 0 ltac:(lia) ltac:(lia) ltac:(lia)) as Hdef.
    destruct (match_loop _ _ _ _ _ _ _) as [[result | mut_size real_iters]| |];
      cbn [mbind exec_bind] in *; [by eexists | | done | done].
    destruct (_ =? _); by eexists.
Qed.

(** What a nonzero answer of the matcher says about the span it stands for. *)
Lemma match_nonzero_span p (rules : list bf_pattern_rule) pos len n :
  0 <= pos ->
  bf_program_match_sequence p rules pos len = Val n -> n <> 0 ->
  0 < len /\ pos + n < size p /\
  (exists final, slot p (pos + n - 1) = Some final /\ is_real final) /\
  Forall2 rule_ok (filter is_real (segment p pos n)) (take (Z.to_nat len) rules).
Proof.
  intros Hpos Hrun Hn. unfold bf_program_match_sequence in Hrun.
  destruct (_ || _) eqn:Hguard; [by injection Hrun as <-|].
  apply orb_false_elim in Hguard as [_ Hlen]. apply Z.leb_gt in Hlen.
  destruct (match_loop _ _ _ _ _ _ _) as [[result | mut_size real_iters]| |]
    eqn:Hloop; cbn [mbind exec_bind] in Hrun; [| |done..].
  { apply match_loop_returned in Hloop as ->. by injection Hrun as <-. }
  destruct (Z.eqb_spec (to_size_t real_iters) len) as [Hall|];
    injection Hrun as <-; [|done].
  destruct (Z.eq_dec (to_int len) 0) as [Hzero | Hnonzero].
  { rewrite Hzero, match_loop_counted in Hloop by lia.
    injection Hloop as <- <-. done. }
  destruct (match_loop_finished p rules pos (to_int len) _ Hpos _ _ _ _ _ Hloop)
    as [Hcount Hclosed]; [unfold INT_MAX; lia .. |].
  destruct (match_loop_sound p rules pos (to_int len) _ Hpos _ _ _ _ _ Hloop)
    as (i' & Hbalance & Hi' & Hscan);
    [lia | lia | lia | apply scanned_start |].
  rewrite to_size_t_id in Hall by (unfold INT_MAX in Hcount; lia).
  rewrite <- Hall, to_int_id in Hbalance, Hclosed
    by (unfold INT_MAX in Hcount; lia).
  assert (i' = mut_size) as -> by lia. subst len.
  destruct Hscan as (_ & _ & Hrules).
  destruct (Hclosed eq_refl) as (_ & Hend & _ & final & Hfinal & Hreal).
  split; [done|]. split; [done|]. split; [|done].
  exists final. split; [done|]. unfold is_real, is_nop in *. done.
Qed.

(** C3. Every real instruction the matcher meets is compared with the next
    open rule, whatever the rule's index and however many [NOP]s were
    skipped, and the comparison decides the answer: a rule with the [STRICT]
    flag is satisfied only by an instruction with the same opcode whose
    argument equals the rule's argument, a rule without it by any instruction
    with the same opcode, regardless of the argument.  On a well-formed
    program with at least [len] rules in the list the call returns a value
    [n], and a nonzero [m] is that value exactly when the span
    [pos .. pos + m) ends in front of the last instruction with a real
    instruction and its real instructions satisfy the first [len] rules in
    this sense, one by one in order; when no span does, the value is 0. *)
Theorem match_compares_strict_loose (p : bf_program)
    (rules : list bf_pattern_rule) (pos len : Z) :
  well_formed p -> 0 <= pos <= INT_MAX -> 0 <= len <= SIZE_MAX ->
  len <= Z.of_nat (length rules) ->
  exists n,
    bf_program_match_sequence p rules pos len = Val n /\
    forall m, m <> 0 ->
      (n = m <->
       0 < len /\ pos + m < size p /\
       (exists final, slot p (pos + m - 1) = Some final /\ is_real final) /\
       Forall2
         (fun instr rule =>
            opcode instr = opcode (instruction rule) /\
            (is_strict rule = true ->
             argument instr = argument (instruction rule)))
         (filter is_real (segment p pos m)) (take (Z.to_nat len) rules)).
Proof.
  intros Hwf Hpos Hlen Hrules.
  destruct (match_sequence_defined p rules pos len Hwf Hpos Hlen Hrules)
    as [n Hrun].
  exists n. split; [done|]. intros m Hm. split.
  - intros ->.
    apply (match_nonzero_span p rules pos len m); [lia | done | done].
  - intros (Hsome & Hend & (final & Hfinal & Hreal) & Hok).
    pose proof (well_formed_bounds p Hwf) as [Hblock Hsize].
    apply slot_load in Hfinal as [Hlast Hfinal].
    assert (Hseg : length (segment p pos m) = Z.to_nat m).
    { unfold segment. rewrite length_take, length_drop. lia. }
    assert (Hcount : Z.of_nat (length (filter is_real (segment p pos m))) = len).
    { apply Forall2_length in Hok. rewrite Hok, length_take. lia. }
    pose proof (length_filter is_real (segment p pos m)) as Hle.
    assert (Hrun' : bf_program_match_sequence p rules pos len
                    = Val (Z.of_nat (length (segment p pos m)))).
    { apply match_reports_slots; try done; rewrite ?Hseg.
      - lia.
      - lia.
      - intros k x Hk. unfold segment in Hk.
        apply lookup_take_Some in Hk as [Hk _]. by rewrite lookup_drop in Hk.
      - rewrite last_lookup, Hseg. unfold segment.
        rewrite lookup_take_lt, lookup_drop by lia.
        replace (Z.to_nat pos + Nat.pred (Z.to_nat m))%nat
          with (Z.to_nat (pos + m - 1)) by lia.
        by rewrite Hfinal.
      - rewrite length_take. lia. }
    rewrite Hseg in Hrun'. rewrite Hrun in Hrun'. injection Hrun' as ->. lia.
Qed.

Lemma match_compares_strict_loose_witness :
  bf_program_match_sequence
    (program_of [ins BF_INS_ADD_V 1; nop; ins BF_INS_JMP 5; ins BF_INS_HALT 0])
    [loose BF_INS_ADD_V; strict BF_INS_JMP 5] 0 2 = Val 3 /\
  bf_program_match_sequence
    (program_of [ins BF_INS_ADD_V 1; nop; ins BF_INS_JMP 5; ins BF_INS_HALT 0])
    [loose BF_INS_ADD_V; strict BF_INS_JMP 6] 0 2 <> Val 3.
Proof.
  assert (Hwf : well_formed
            (program_of [ins BF_INS_ADD_V 1; nop; ins BF_INS_JMP 5;
                         ins BF_INS_HALT 0]))
    by (apply well_formed_program_of; simpl; lia).
  assert (Hpos : 0 <= 0 <= INT_MAX) by (unfold INT_MAX; lia).
  assert (Hlen : 0 <= 2 <= SIZE_MAX) by (unfold SIZE_MAX, SIZE_WIDTH; lia).
  split.
  - destruct (match_compares_strict_loose _
                [loose BF_INS_ADD_V; strict BF_INS_JMP 5] 0 2 Hwf Hpos Hlen
                ltac:(simpl; lia)) as (n & Hrun & Hspan).
    rewrite Hrun. f_equal. apply (Hspan 3); [lia|].
    split; [lia|]. split; [reflexivity|].
    split; [exists (ins BF_INS_JMP 5); split; [reflexivity | by unfold is_real]|].
    change (Forall2 rule_ok [ins BF_INS_ADD_V 1; ins BF_INS_JMP 5]
              [loose BF_INS_ADD_V; strict BF_INS_JMP 5]).
    constructor; [split; [reflexivity | intros H; discriminate H]|].
    constructor; [split; [reflexivity | reflexivity]|]. constructor.
  - destruct (match_compares_strict_loose _
                [loose BF_INS_ADD_V; strict BF_INS_JMP 6] 0 2 Hwf Hpos Hlen
                ltac:(simpl; lia)) as (n & Hrun & Hspan).
    rewrite Hrun. intros [= ->].
    destruct (proj1 (Hspan 3 ltac:(lia)) eq_refl) as (_ & _ & _ & Hok).
    change (Forall2 rule_ok [ins BF_INS_ADD_V 1; ins BF_INS_JMP 5]
              [loose BF_INS_ADD_V; strict BF_INS_JMP 6]) in Hok.
    apply Forall2_cons_1 in Hok as [_ Hok].
    apply Forall2_cons_1 in Hok as [[_ Harg] _].
    specialize (Harg eq_refl). discriminate Harg.
Defined.
